(** * useCountdown: a countdown timer layered on an interval scheduler

    Shallow embedding of [packages/core/useCountdown/index.ts].

    Conventions of the embedding.
    - A JavaScript [number] is an IEEE 754 binary64 value: [spec_float]
      of the Standard Library with a precision of 53 bits, so that
      rounding, infinities, signed zeros and NaN are those of the
      language.  [of_Z] turns an integer into the number nearest to it.
    - A reactive source ([MaybeRef], [MaybeRefOrGetter]) is read against a
      snapshot [World] of the reactive state that lives outside the
      controller; every operation that reads a source takes the snapshot
      that is current when it runs.
    - The refs [remaining] and [intervalController.isActive] are fields of
      an explicit state record that every operation takes and returns.
    - User callbacks are opaque.  Invoking one appends a [Call] to a log,
      together with what the callback can observe at that moment, and
      either returns or throws; [throws] says which, for each function
      and snapshot.  A throw abandons the rest of the tick.  A callback
      that re-enters the controller is not modelled. *)

From Stdlib Require Import ZArith List Bool Lia.
From Stdlib Require Import SpecFloat.
Import ListNotations.
Local Open Scope Z_scope.

(** ** Numbers *)

Definition number : Type := spec_float.

(** The parameters of binary64. *)
Definition prec : Z := 53.
Definition emax : Z := 1024.

(** [x - y] *)
Definition js_sub (x y : number) : number := SFsub prec emax x y.

(** [x < y], [x <= y], [x > y] and [x == y]; each is false when an
    operand is NaN. *)
Definition js_lt (x y : number) : bool := SFltb x y.

Definition js_le (x y : number) : bool := SFleb x y.

Definition js_gt (x y : number) : bool :=
  match SFcompare x y with
  | Some Gt => true
  | _ => false
  end.

Definition js_eq (x y : number) : bool := SFeqb x y.

(** The number written as the integer literal [z]. *)
Definition of_Z (z : Z) : number := binary_normalize prec emax z 0 false.

(** The literals [0] and [1]. *)
Definition zero : number := S754_zero false.

Definition one : number := S754_finite false 4503599627370496 (-52).

(** [p] shifted left by [k] binary places. *)
Definition shl (p : positive) (k : Z) : positive :=
  match k with
  | Zpos d => Pos.iter xO p d
  | _ => p
  end.

(** Mantissa and exponent of the binary64 value of a positive integer
    below [2 ^ 53]. *)
Definition mant (p : positive) : positive :=
  shl p (53 - Zpos (Pos.size p)).

Definition expo (p : positive) : Z := Zpos (Pos.size p) - 53.

(** A shift record with nothing lost. *)
Definition exact (m : Z) : shr_record := Build_shr_record m false false.

(** The sign of a number that is not NaN. *)
Definition signed (sg : bool) (x : number) : Prop :=
  match x with
  | S754_zero s' | S754_infinity s' | S754_finite s' _ _ => s' = sg
  | S754_nan => False
  end.

(** A number in the form binary64 stores. *)
Definition valid (x : number) : Prop := valid_binary prec emax x = true.

(** ** Callbacks *)

(** Identity of a [() => void] function value. *)
Definition Fn := nat.

(** Which option a callback was taken from. *)
Inductive Slot : Type := OnTick | OnComplete.

Definition Slot_eqb (a b : Slot) : bool :=
  match a, b with
  | OnTick, OnTick => true
  | OnComplete, OnComplete => true
  | _, _ => false
  end.

(** One callback invocation, with the values of [remaining] and [isActive]
    at the moment of the call. *)
Record Call : Type := mkCall {
  slot : Slot;
  fn : Fn;
  seenRemaining : number;
  seenActive : bool
}.

(** The [onComplete] invocations of a log, in order. *)
Definition completions (l : list Call) : list Call :=
  filter (fun c => Slot_eqb (slot c) OnComplete) l.

(** The [onTick] invocations of a log, in order. *)
Definition tickCalls (l : list Call) : list Call :=
  filter (fun c => Slot_eqb (slot c) OnTick) l.

(** The log entries one [f?.()] adds. *)
Definition call_of (sl : Slot) (f : option Fn) (r : number) (a : bool)
  : list Call :=
  match f with
  | None => []
  | Some g => [mkCall sl g r a]
  end.

(** What one tick does to the value: [value < 0 ? 0 : value] for
    [value = remaining - 1]. *)
Definition decrement (r : number) : number :=
  let value := js_sub r one in
  if js_lt value zero then zero else value.

Section Reactive.

Variable World : Type.

(** Whether calling a function ends in an exception, given the state of
    the world at the call. *)
Variable throws : World -> Fn -> bool.

(** [MaybeRef<T>]: a plain value or a ref read from the world. *)
Inductive MaybeRef (T : Type) : Type :=
| Plain (v : T)
| OfRef (read : World -> T).

(** [MaybeRefOrGetter<T>]: a plain value, a ref, or a getter. *)
Inductive MaybeRefOrGetter (T : Type) : Type :=
| Source (r : MaybeRef T)
| Getter (get : World -> T).

Definition unref {T : Type} (r : MaybeRef T) (w : World) : T :=
  match r with
  | Plain _ v => v
  | OfRef _ read => read w
  end.

Definition toValue {T : Type} (r : MaybeRefOrGetter T) (w : World) : T :=
  match r with
  | Source _ m => unref m w
  | Getter _ get => get w
  end.

(** [UseCountdownOptions]; every field is optional. *)
Record UseCountdownOptions : Type := mkOptions {
  interval : option (MaybeRefOrGetter number);
  onComplete : option (MaybeRef Fn);
  onTick : option Fn;
  immediate : option bool
}.

(** ** The interval scheduler *)

(** Modelled from the spec: [useIntervalFn] of [@vueuse/shared] is not
    part of the sources at hand.  The spec describes it as a
    periodic-callback scheduler constructed with
    [(callback, periodMs, {immediate})] that exposes [pause()],
    [resume()] and a boolean [isActive] reporting whether it is
    currently running. *)
Record IntervalFn : Type := mkIntervalFn {
  isActive : bool;
  period : MaybeRefOrGetter number
}.

(** Modelled from the spec: [immediate] tells whether the scheduler
    starts upon construction. *)
Definition useIntervalFn (periodMs : MaybeRefOrGetter number)
  (immediate_ : bool) : IntervalFn :=
  {| isActive := immediate_; period := periodMs |}.

(** Modelled from the spec: [pause()] stops the recurring callback. *)
Definition IntervalFn_pause (c : IntervalFn) : IntervalFn :=
  {| isActive := false; period := period c |}.

(** Modelled from the spec: [resume()] starts the recurring callback. *)
Definition IntervalFn_resume (c : IntervalFn) : IntervalFn :=
  {| isActive := true; period := period c |}.

(** ** The countdown controller *)

(** The mutable state owned by one call of [useCountdown]. *)
Record Countdown : Type := mkCountdown {
  remaining : number;
  intervalController : IntervalFn;
  calls : list Call
}.

Definition set_remaining (v : number) (s : Countdown) : Countdown :=
  {| remaining := v;
     intervalController := intervalController s;
     calls := calls s |}.

Definition set_intervalController (c : IntervalFn) (s : Countdown)
  : Countdown :=
  {| remaining := remaining s;
     intervalController := c;
     calls := calls s |}.

(** How a piece of code that may throw ends, with the state it leaves. *)
Inductive Outcome : Type :=
| Returned (s : Countdown)
| Thrown (s : Countdown).

Definition state_of (o : Outcome) : Countdown :=
  match o with
  | Returned s => s
  | Thrown s => s
  end.

Definition has_thrown (o : Outcome) : bool :=
  match o with
  | Returned _ => false
  | Thrown _ => true
  end.

(** Sequencing: an exception skips what follows. *)
Definition bind (o : Outcome) (k : Countdown -> Outcome) : Outcome :=
  match o with
  | Returned s => k s
  | Thrown s => Thrown s
  end.

Notation "x <- o ;; k" := (bind o (fun x => k))
  (at level 61, o at next level, right associativity).

(** [f?.()]: call [f] when it is defined.  The log entry records what
    the callback sees; the call returns or throws as [throws] says. *)
Definition invoke (sl : Slot) (f : option Fn) (w : World) (s : Countdown)
  : Outcome :=
  match f with
  | None => Returned s
  | Some g =>
      let s' :=
        {| remaining := remaining s;
           intervalController := intervalController s;
           calls := calls s ++
                    [mkCall sl g (remaining s)
                       (isActive (intervalController s))] |} in
      if throws w g then Thrown s' else Returned s'
  end.

Section UseCountdown.

(** The arguments of [useCountdown]; its inner functions close over
    them. *)
Variable initialCountdown : MaybeRefOrGetter number.
Variable options : option UseCountdownOptions.

(** [options?.interval ?? 1000] *)
Definition interval_or_default : MaybeRefOrGetter number :=
  match options with
  | Some o =>
      match interval o with
      | Some i => i
      | None => Source _ (Plain _ (of_Z 1000))
      end
  | None => Source _ (Plain _ (of_Z 1000))
  end.

(** [options?.immediate ?? false] *)
Definition immediate_or_default : bool :=
  match options with
  | Some o =>
      match immediate o with
      | Some b => b
      | None => false
      end
  | None => false
  end.

(** [options?.onTick] *)
Definition onTick_value : option Fn :=
  match options with
  | Some o => onTick o
  | None => None
  end.

(** [onComplete.value]: the ref made at line 56 is kept equal to
    [unref(options?.onComplete)] by the [watchEffect], so reading it
    gives the current value of the option. *)
Definition onComplete_value (w : World) : option Fn :=
  match options with
  | Some o =>
      match onComplete o with
      | Some r => Some (unref r w)
      | None => None
      end
  | None => None
  end.

(** Whether the call [options?.onTick?.()] throws. *)
Definition onTick_throws (w : World) : bool :=
  match onTick_value with
  | Some g => throws w g
  | None => false
  end.

(** Whether a tick on a state with value [r] gets as far as pausing the
    scheduler: [onTick] has returned and the new value is 0 or less. *)
Definition completes (w : World) (r : number) : bool :=
  negb (onTick_throws w) && js_le (decrement r) zero.

(** [pause: intervalController.pause] *)
Definition pause (s : Countdown) : Countdown :=
  set_intervalController (IntervalFn_pause (intervalController s)) s.

(** The callback handed to [useIntervalFn] (lines 62-70). *)
Definition tick (w : World) (s : Countdown) : Outcome :=
  let value := js_sub (remaining s) one in
  let s1 := set_remaining (if js_lt value zero then zero else value) s in
  s2 <- invoke OnTick onTick_value w s1 ;;
  if js_le (remaining s2) zero
  then invoke OnComplete (onComplete_value w) w (pause s2)
  else Returned s2.

(** The body of [useCountdown]: the state right after construction. *)
Definition useCountdown (w : World) : Countdown :=
  {| remaining := toValue initialCountdown w;
     intervalController :=
       useIntervalFn interval_or_default immediate_or_default;
     calls := [] |}.

Definition reset (w : World) (s : Countdown) : Countdown :=
  set_remaining (toValue initialCountdown w) s.

Definition stop (w : World) (s : Countdown) : Countdown :=
  reset w (pause s).

Definition resume (s : Countdown) : Countdown :=
  if negb (isActive (intervalController s))
  then
    if js_gt (remaining s) zero
    then set_intervalController
           (IntervalFn_resume (intervalController s)) s
    else s
  else s.

(** [start] is declared with an optional argument in
    [UseCountdownReturn]; the function bound to it takes none, so the
    argument is dropped. *)
Definition start (_ : option (MaybeRefOrGetter number)) (w : World)
  (s : Countdown) : Countdown :=
  let s1 := reset w s in
  set_intervalController (IntervalFn_resume (intervalController s1)) s1.

(** Modelled from the spec: the scheduler invokes its callback once
    per period while it is active, and not at all while paused.  An
    exception of the callback goes to the caller of the timer and leaves
    the scheduler as the callback left it. *)
Definition fire (w : World) (s : Countdown) : Countdown :=
  if isActive (intervalController s) then state_of (tick w s) else s.

(** [k] invocations of the tick callback, one per snapshot. *)
Fixpoint ticks (ws : list World) (s : Countdown) : Countdown :=
  match ws with
  | [] => s
  | w :: ws' => ticks ws' (state_of (tick w s))
  end.

(** Successive periods of the scheduler, one per snapshot. *)
Fixpoint run (ws : list World) (s : Countdown) : Countdown :=
  match ws with
  | [] => s
  | w :: ws' => run ws' (fire w s)
  end.

(** What can happen to a controller after construction. *)
Inductive Op : Type :=
| OpTick
| OpReset
| OpStop
| OpStart (override : option (MaybeRefOrGetter number))
| OpPause
| OpResume.

Definition step (w : World) (op : Op) (s : Countdown) : Countdown :=
  match op with
  | OpTick => fire w s
  | OpReset => reset w s
  | OpStop => stop w s
  | OpStart o => start o w s
  | OpPause => pause s
  | OpResume => resume s
  end.

Fixpoint exec (tr : list (World * Op)) (s : Countdown) : Countdown :=
  match tr with
  | [] => s
  | (w, op) :: tr' => exec tr' (step w op s)
  end.

(** The states a controller can be in between two operations. *)
Inductive reachable : Countdown -> Prop :=
| reachable_init : forall w, reachable (useCountdown w)
| reachable_step : forall w op s,
    reachable s -> reachable (step w op s).

(** ** Vocabulary for statements about the callback log *)

(** The [onTick] calls of [k] successive ticks that start at the integer
    value [n]: each sees the value already decremented, and a running
    scheduler. *)
Fixpoint onTick_log (g : Fn) (n : Z) (k : nat) : list Call :=
  match k with
  | O => []
  | S k' => mkCall OnTick g (of_Z (n - 1)) true :: onTick_log g (n - 1) k'
  end.

(** What a callback may observe: [onTick] a non-negative value and a
    running scheduler, [onComplete] the value 0 and a paused scheduler. *)
Definition well_observed (c : Call) : Prop :=
  match slot c with
  | OnTick => js_le zero (seenRemaining c) = true /\ seenActive c = true
  | OnComplete => js_eq (seenRemaining c) zero = true /\ seenActive c = false
  end.

(** The operations that do not read the initial value. *)
Definition passive (op : Op) : bool :=
  match op with
  | OpTick | OpPause | OpResume => true
  | OpReset | OpStop | OpStart _ => false
  end.

(** The operations that can set the scheduler running. *)
Definition activates (op : Op) : bool :=
  match op with
  | OpStart _ | OpResume => true
  | OpTick | OpReset | OpStop | OpPause => false
  end.

(** How many operations of a trace can set the scheduler running. *)
Definition activations (tr : list (World * Op)) : nat :=
  length (filter (fun x => activates (snd x)) tr).

(** ** Facts about numbers *)

Lemma digits2_pos_size : forall p, digits2_pos p = Pos.size p.
Proof. induction p; simpl; congruence. Qed.

Lemma iter_pos_iter : forall (A : Type) (f : A -> A) p x,
  iter_pos f p x = Pos.iter f x p.
Proof.
  intros A f. induction p as [p IH|p IH|]; intro x; simpl.
  - rewrite !IH. rewrite <- !Pos.iter_swap. reflexivity.
  - rewrite !IH. reflexivity.
  - reflexivity.
Qed.

Lemma size_iter_xO : forall d p,
  Pos.size (Pos.iter xO p d) = (Pos.size p + d)%positive.
Proof.
  intros d p. induction d as [|d IH] using Pos.peano_ind.
  - simpl. lia.
  - rewrite Pos.iter_succ. simpl. rewrite IH. lia.
Qed.

Lemma Zpos_iter_xO : forall d p,
  Zpos (Pos.iter xO p d) = Zpos p * 2 ^ Zpos d.
Proof.
  intros d p. induction d as [|d IH] using Pos.peano_ind.
  - simpl. lia.
  - rewrite Pos.iter_succ, Pos2Z.inj_xO, IH, Pos2Z.inj_succ.
    rewrite Z.pow_succ_r by lia. lia.
Qed.

(** Shifting out binary zeros loses nothing. *)
Lemma shr_exact : forall d q,
  iter_pos shr_1 d (exact (Zpos (Pos.iter xO q d))) = exact (Zpos q).
Proof.
  intros d q. rewrite iter_pos_iter.
  revert q. induction d as [|d IH] using Pos.peano_ind; intro q.
  - reflexivity.
  - rewrite Pos.iter_succ_r, Pos.iter_succ. simpl. apply IH.
Qed.

Lemma fexp_canonical : forall e,
  -1074 <= e -> fexp prec emax (53 + e) = e.
Proof. intros e H. unfold fexp, emin, prec, emax. lia. Qed.

(** Rounding leaves a 53-bit mantissa as it is. *)
Lemma binary_round_aux_canonical : forall s m e,
  Pos.size m = 53%positive -> -1074 <= e <= 971 ->
  binary_round_aux prec emax s (Zpos m) e loc_Exact = S754_finite s m e.
Proof.
  intros s m e Hm He.
  unfold binary_round_aux, shr_fexp. cbn [Zdigits2 shr_record_of_loc].
  rewrite digits2_pos_size, Hm, fexp_canonical, Z.sub_diag by lia.
  cbn [shr shr_m loc_of_shr_record round_nearest_even Zdigits2
       shr_record_of_loc].
  rewrite digits2_pos_size, Hm, fexp_canonical, Z.sub_diag by lia.
  cbn [shr shr_m].
  destruct (Z.leb_spec e (emax - prec));
    [reflexivity | unfold emax, prec in *; lia].
Qed.

(** Rounding a 53-bit mantissa followed by [d] zeros only moves the
    exponent. *)
Lemma binary_round_aux_shift : forall s q d e,
  Pos.size q = 53%positive -> -1074 <= e -> e + Zpos d <= 971 ->
  binary_round_aux prec emax s (Zpos (Pos.iter xO q d)) e loc_Exact
  = S754_finite s q (e + Zpos d).
Proof.
  intros s q d e Hq He1 He2.
  unfold binary_round_aux, shr_fexp. cbn [Zdigits2 shr_record_of_loc].
  rewrite digits2_pos_size, size_iter_xO, Hq.
  replace (Zpos (53 + d) + e) with (53 + (e + Zpos d)) by lia.
  rewrite fexp_canonical by lia.
  replace (e + Zpos d - e) with (Zpos d) by lia.
  cbn [shr].
  change (Build_shr_record (Zpos (Pos.iter xO q d)) false false)
    with (exact (Zpos (Pos.iter xO q d))).
  rewrite shr_exact.
  cbn [exact shr_m loc_of_shr_record round_nearest_even Zdigits2
       shr_record_of_loc].
  rewrite digits2_pos_size, Hq, fexp_canonical, Z.sub_diag by lia.
  cbn [shr shr_m].
  destruct (Z.leb_spec (e + Zpos d) (emax - prec));
    [reflexivity | unfold emax, prec in *; lia].
Qed.

Lemma size_shl : forall p k, 0 <= k ->
  Zpos (Pos.size (shl p k)) = Zpos (Pos.size p) + k.
Proof.
  intros p [|d|d] H; simpl; try lia.
  rewrite size_iter_xO. lia.
Qed.

Lemma Zpos_shl : forall p k, 0 <= k -> Zpos (shl p k) = Zpos p * 2 ^ k.
Proof.
  intros p [|d|d] H; try lia.
  - simpl. lia.
  - simpl shl. apply Zpos_iter_xO.
Qed.

Lemma shl_shl : forall p a b, 0 <= a -> 0 <= b ->
  shl (shl p a) b = shl p (a + b).
Proof.
  intros p a b Ha Hb. apply Pos2Z.inj.
  rewrite !Zpos_shl by lia. rewrite Z.pow_add_r by lia. lia.
Qed.

Lemma size_small : forall p, Zpos p < 2 ^ 53 -> Zpos (Pos.size p) <= 53.
Proof.
  intros p H. pose proof (Pos.size_le p) as Hle.
  assert (H2 : 2 ^ Zpos (Pos.size p) <= 2 * Zpos p).
  { apply Pos2Z.pos_le_pos in Hle.
    rewrite Pos2Z.inj_pow, Pos2Z.inj_xO in Hle. exact Hle. }
  destruct (Z.le_gt_cases (Zpos (Pos.size p)) 53) as [Hs|Hs]; [exact Hs|].
  assert (2 ^ 54 <= 2 ^ Zpos (Pos.size p)) by (apply Z.pow_le_mono_r; lia).
  change (2 ^ 54) with (2 * 2 ^ 53) in *. lia.
Qed.

Lemma size_mant : forall p, Zpos (Pos.size p) <= 53 ->
  Pos.size (mant p) = 53%positive.
Proof.
  intros p H. apply Pos2Z.inj. unfold mant. rewrite size_shl by lia. lia.
Qed.

(** The binary64 value of an integer of at most 53 bits. *)
Lemma binary_round_small : forall s p,
  Zpos (Pos.size p) <= 53 ->
  binary_round prec emax s p 0 = S754_finite s (mant p) (expo p).
Proof.
  intros s p H. unfold binary_round, shl_align.
  rewrite digits2_pos_size.
  replace (Zpos (Pos.size p) + 0) with (53 + expo p) by (unfold expo; lia).
  rewrite fexp_canonical by (unfold expo; lia).
  pose proof (size_mant p H) as Hm. unfold mant in *.
  replace (53 - Zpos (Pos.size p)) with (- expo p) in *
    by (unfold expo; lia).
  rewrite Z.sub_0_r.
  assert (He : expo p <= 0) by (unfold expo; lia).
  assert (He' : -52 <= expo p) by (unfold expo; lia).
  destruct (expo p) as [|e|e] eqn:E; try lia.
  - simpl in Hm. apply binary_round_aux_canonical; [exact Hm | lia].
  - simpl in Hm. cbn [Z.opp shl] in *.
    apply binary_round_aux_canonical; [exact Hm | lia].
Qed.

(** The same integer carried with 52 more binary places. *)
Lemma binary_round_52 : forall s p,
  Zpos (Pos.size p) <= 53 ->
  binary_round prec emax s (shl p 52) (-52)
  = S754_finite s (mant p) (expo p).
Proof.
  intros s p H. unfold binary_round, shl_align.
  rewrite digits2_pos_size, size_shl by lia.
  replace (Zpos (Pos.size p) + 52 + -52) with (53 + expo p)
    by (unfold expo; lia).
  rewrite fexp_canonical by (unfold expo; lia).
  assert (He : 0 <= expo p - -52) by (unfold expo; lia).
  destruct (expo p - -52) as [|d|d] eqn:E; try lia.
  - assert (Hs : Zpos (Pos.size p) = 1) by (unfold expo in E; lia).
    assert (Hm : mant p = shl p 52).
    { unfold mant. rewrite Hs. reflexivity. }
    rewrite <- Hm. replace (-52) with (expo p) by lia.
    apply binary_round_aux_canonical.
    + apply size_mant. exact H.
    + unfold expo. lia.
  - assert (Hm : shl p 52 = Pos.iter xO (mant p) d).
    { change (Pos.iter xO (mant p) d) with (shl (mant p) (Zpos d)).
      unfold mant. rewrite shl_shl by (unfold expo in *; lia).
      f_equal. unfold expo in E. lia. }
    rewrite Hm.
    replace (expo p) with (-52 + Zpos d) by lia.
    apply binary_round_aux_shift.
    + apply size_mant. exact H.
    + lia.
    + unfold expo in *. lia.
Qed.

Lemma of_Z_pos : forall p, Zpos p < 2 ^ 53 ->
  of_Z (Zpos p) = S754_finite false (mant p) (expo p).
Proof. intros p H. apply binary_round_small. now apply size_small. Qed.

Lemma of_Z_neg : forall p, Zpos p < 2 ^ 53 ->
  of_Z (Zneg p) = S754_finite true (mant p) (expo p).
Proof. intros p H. apply binary_round_small. now apply size_small. Qed.

Lemma normalize_52 : forall z, -2 ^ 53 < z < 2 ^ 53 ->
  binary_normalize prec emax (z * 2 ^ 52) (-52) false = of_Z z.
Proof.
  intros [|p|p] H.
  - reflexivity.
  - unfold of_Z.
    replace (Zpos p * 2 ^ 52) with (Zpos (shl p 52))
      by (apply Zpos_shl; lia).
    cbn [binary_normalize].
    rewrite binary_round_52, binary_round_small by (apply size_small; lia).
    reflexivity.
  - unfold of_Z.
    replace (Zneg p * 2 ^ 52) with (Zneg (shl p 52)).
    2:{ rewrite <- Pos2Z.opp_pos, (Zpos_shl p 52) by lia. lia. }
    cbn [binary_normalize].
    rewrite binary_round_52, binary_round_small by (apply size_small; lia).
    reflexivity.
Qed.

Lemma align_52 : forall p, Zpos (Pos.size p) <= 53 ->
  fst (shl_align (mant p) (expo p) (-52)) = shl p 52.
Proof.
  intros p H. unfold shl_align.
  assert (Hm : shl (mant p) (expo p + 52) = shl p 52).
  { unfold mant. rewrite shl_shl by (unfold expo; lia).
    f_equal. unfold expo. lia. }
  assert (He : -52 - expo p <= 0) by (unfold expo; lia).
  destruct (-52 - expo p) as [|d|d] eqn:E; try lia.
  - replace (expo p + 52) with 0 in Hm by lia. exact Hm.
  - replace (expo p + 52) with (Zpos d) in Hm by lia. exact Hm.
Qed.

(** Below [2 ^ 53] in size, taking one off an integer is exact. *)
Lemma of_Z_sub_one : forall n,
  -2 ^ 53 < n - 1 -> n < 2 ^ 53 ->
  js_sub (of_Z n) one = of_Z (n - 1).
Proof.
  intros [|p|p] Hlo Hhi.
  - reflexivity.
  - rewrite of_Z_pos by lia. unfold js_sub, one, SFsub.
    assert (Hs : Zpos (Pos.size p) <= 53) by (apply size_small; lia).
    assert (Hmin : Z.min (expo p) (-52) = -52) by (unfold expo; lia).
    rewrite Hmin, align_52 by exact Hs.
    change (fst (shl_align 4503599627370496 (-52) (-52)))
      with 4503599627370496%positive.
    cbn [cond_Zopp].
    replace (Zpos (shl p 52) - 4503599627370496)
      with ((Zpos p - 1) * 2 ^ 52)
      by (rewrite Zpos_shl by lia;
          change (2 ^ 52) with 4503599627370496; lia).
    apply normalize_52. lia.
  - rewrite of_Z_neg by lia. unfold js_sub, one, SFsub.
    assert (Hs : Zpos (Pos.size p) <= 53) by (apply size_small; lia).
    assert (Hmin : Z.min (expo p) (-52) = -52) by (unfold expo; lia).
    rewrite Hmin, align_52 by exact Hs.
    change (fst (shl_align 4503599627370496 (-52) (-52)))
      with 4503599627370496%positive.
    cbn [cond_Zopp].
    replace (- Zpos (shl p 52) - 4503599627370496)
      with ((Zneg p - 1) * 2 ^ 52)
      by (rewrite Zpos_shl by lia;
          change (2 ^ 52) with 4503599627370496; lia).
    apply normalize_52. lia.
Qed.

(** An integer below [2 ^ 53] in size compares with 0 as its number
    does. *)
Lemma compare_of_Z_zero : forall n, -2 ^ 53 < n < 2 ^ 53 ->
  SFcompare (of_Z n) zero = Some (n ?= 0) /\
  SFcompare zero (of_Z n) = Some (0 ?= n).
Proof.
  intros [|p|p] H.
  - split; reflexivity.
  - rewrite of_Z_pos by lia. split; reflexivity.
  - rewrite of_Z_neg by lia. split; reflexivity.
Qed.

Lemma js_lt_of_Z : forall n, -2 ^ 53 < n < 2 ^ 53 ->
  js_lt (of_Z n) zero = (n <? 0).
Proof.
  intros n H. unfold js_lt, SFltb, Z.ltb.
  rewrite (proj1 (compare_of_Z_zero n H)). reflexivity.
Qed.

Lemma js_le_of_Z : forall n, -2 ^ 53 < n < 2 ^ 53 ->
  js_le (of_Z n) zero = (n <=? 0).
Proof.
  intros n H. unfold js_le, SFleb, Z.leb.
  rewrite (proj1 (compare_of_Z_zero n H)).
  destruct (n ?= 0); reflexivity.
Qed.

Lemma js_gt_of_Z : forall n, -2 ^ 53 < n < 2 ^ 53 ->
  js_gt (of_Z n) zero = (0 <? n).
Proof.
  intros n H. unfold js_gt. rewrite (proj1 (compare_of_Z_zero n H)).
  rewrite Z.ltb_antisym. unfold Z.leb.
  destruct (n ?= 0); reflexivity.
Qed.


(** What a tick does to an integer below [2 ^ 53] in size. *)
Lemma decrement_of_Z : forall n,
  -2 ^ 53 < n - 1 -> n < 2 ^ 53 ->
  decrement (of_Z n) = of_Z (Z.max (n - 1) 0).
Proof.
  intros n Hlo Hhi. unfold decrement.
  rewrite of_Z_sub_one, js_lt_of_Z by lia.
  destruct (Z.ltb_spec (n - 1) 0).
  - replace (Z.max (n - 1) 0) with 0 by lia. reflexivity.
  - replace (Z.max (n - 1) 0) with (n - 1) by lia. reflexivity.
Qed.

(** The literals are the numbers of the integers they write. *)
Lemma literals_of_Z : zero = of_Z 0 /\ one = of_Z 1.
Proof. split; reflexivity. Qed.

(** *** Signs, and the absence of NaN *)

Lemma shr_1_nonneg : forall r, 0 <= shr_m r -> 0 <= shr_m (shr_1 r).
Proof. intros [[|[p|p|]|p] r s] H; simpl in *; lia. Qed.

Lemma shr_nonneg : forall r e n,
  0 <= shr_m r -> 0 <= shr_m (fst (shr r e n)).
Proof.
  intros r e [|d|d] H; simpl; try assumption.
  rewrite iter_pos_iter.
  apply Pos.iter_invariant; [apply shr_1_nonneg | assumption].
Qed.

Lemma shr_fexp_nonneg : forall m e l,
  0 <= m -> 0 <= shr_m (fst (shr_fexp prec emax m e l)).
Proof.
  intros m e l H. unfold shr_fexp. apply shr_nonneg.
  destruct l as [|[]]; simpl; assumption.
Qed.

Lemma round_nearest_even_nonneg : forall m l,
  0 <= m -> 0 <= round_nearest_even m l.
Proof.
  intros m [|[]] H; simpl; try lia.
  destruct (Z.even m); lia.
Qed.

(** Rounding keeps the sign and never gives NaN. *)
Lemma binary_round_aux_signed : forall s m e l,
  0 <= m -> signed s (binary_round_aux prec emax s m e l).
Proof.
  intros s m e l H. unfold binary_round_aux.
  pose proof (shr_fexp_nonneg m e l H) as H1.
  destruct (shr_fexp prec emax m e l) as [mrs' e'].
  cbn [fst] in H1.
  pose proof (shr_fexp_nonneg
                (round_nearest_even (shr_m mrs') (loc_of_shr_record mrs'))
                e' loc_Exact
                (round_nearest_even_nonneg _ _ H1)) as H2.
  destruct (shr_fexp prec emax
              (round_nearest_even (shr_m mrs') (loc_of_shr_record mrs'))
              e' loc_Exact) as [mrs'' e''].
  cbn [fst] in H2.
  destruct (shr_m mrs'') as [|p|p]; try lia.
  - reflexivity.
  - destruct (e'' <=? emax - prec); reflexivity.
Qed.

Lemma binary_round_signed : forall s p e,
  signed s (binary_round prec emax s p e).
Proof.
  intros s p e. unfold binary_round.
  destruct (shl_align p e _) as [mz ez].
  apply binary_round_aux_signed. lia.
Qed.

Lemma signed_not_nan : forall s x, signed s x -> x <> S754_nan.
Proof. intros s x H E. subst x. exact H. Qed.

Lemma binary_normalize_not_nan : forall m e,
  binary_normalize prec emax m e false <> S754_nan.
Proof.
  intros [|p|p] e; cbn [binary_normalize].
  - discriminate.
  - apply (signed_not_nan false). apply binary_round_signed.
  - apply (signed_not_nan true). apply binary_round_signed.
Qed.

Lemma js_sub_one_not_nan : forall x,
  x <> S754_nan -> js_sub x one <> S754_nan.
Proof.
  intros [s|s| |s m e] H; try discriminate.
  - now contradiction H.
  - unfold js_sub, one, SFsub. apply binary_normalize_not_nan.
Qed.

Lemma decrement_not_nan : forall r,
  r <> S754_nan -> decrement r <> S754_nan.
Proof.
  intros r H. unfold decrement.
  destruct (js_lt (js_sub r one) zero); [discriminate|].
  now apply js_sub_one_not_nan.
Qed.

Lemma decrement_nan : decrement S754_nan = S754_nan.
Proof. reflexivity. Qed.

(** *** Comparisons with 0 *)

Lemma nonneg_not_nan : forall x, js_le zero x = true -> x <> S754_nan.
Proof. intros x H E. subst x. discriminate. Qed.

Lemma positive_not_nan : forall x, js_gt x zero = true -> x <> S754_nan.
Proof. intros x H E. subst x. discriminate. Qed.

Lemma not_lt_nonneg : forall x,
  x <> S754_nan -> js_lt x zero = false -> js_le zero x = true.
Proof.
  intros [s|s| |s m e] Hn H; try reflexivity.
  - destruct s; [discriminate | reflexivity].
  - now contradiction Hn.
  - destruct s; [discriminate | reflexivity].
Qed.

Lemma not_le_positive : forall x,
  x <> S754_nan -> js_le x zero = false -> js_gt x zero = true.
Proof.
  intros [s|s| |s m e] Hn H; try discriminate.
  - destruct s; [discriminate | reflexivity].
  - now contradiction Hn.
  - destruct s; [discriminate | reflexivity].
Qed.

Lemma le_not_gt : forall x, js_le x zero = true -> js_gt x zero = false.
Proof.
  intros x H. unfold js_le, SFleb, js_gt in *.
  destruct (SFcompare x zero) as [[]|]; try reflexivity; discriminate.
Qed.

Lemma positive_nonneg : forall x,
  js_gt x zero = true -> js_le zero x = true.
Proof.
  intros [s|s| |s m e] H; try discriminate.
  - destruct s; [discriminate | reflexivity].
  - destruct s; [discriminate | reflexivity].
Qed.

Lemma le_le_eq : forall x,
  js_le x zero = true -> js_le zero x = true -> js_eq x zero = true.
Proof.
  intros [s|s| |s m e] H1 H2; try discriminate; try reflexivity.
  - destruct s; discriminate.
  - destruct s; discriminate.
Qed.

Lemma eq_zero_le : forall x, js_eq x zero = true -> js_le x zero = true.
Proof.
  intros x H. unfold js_eq, SFeqb, js_le, SFleb in *.
  destruct (SFcompare x zero) as [[]|]; try reflexivity; discriminate.
Qed.

Lemma decrement_zero : forall x, js_eq x zero = true -> decrement x = zero.
Proof.
  intros [s|s| |s m e] H; try discriminate.
  - destruct s; reflexivity.
  - destruct s; discriminate.
  - destruct s; discriminate.
Qed.

(** A tick leaves a value that is not NaN at 0 or above. *)
Lemma decrement_nonneg : forall r,
  r <> S754_nan -> js_le zero (decrement r) = true.
Proof.
  intros r H. unfold decrement.
  destruct (js_lt (js_sub r one) zero) eqn:E; [reflexivity|].
  apply not_lt_nonneg; [now apply js_sub_one_not_nan | exact E].
Qed.

(** *** Rounding in general, and the order of a number and its
    decrement *)

Lemma size_log2 : forall p, Zpos (Pos.size p) = Z.log2 (Zpos p) + 1.
Proof. intros [p|p|]; simpl; lia. Qed.

Lemma size_bounds : forall p,
  2 ^ (Zpos (Pos.size p) - 1) <= Zpos p < 2 ^ Zpos (Pos.size p).
Proof.
  intro p. rewrite size_log2.
  replace (Z.log2 (Zpos p) + 1 - 1) with (Z.log2 (Zpos p)) by lia.
  replace (Z.log2 (Zpos p) + 1) with (Z.succ (Z.log2 (Zpos p))) by lia.
  apply Z.log2_spec. lia.
Qed.

Lemma size_unique : forall p d,
  2 ^ (d - 1) <= Zpos p < 2 ^ d -> Zpos (Pos.size p) = d.
Proof.
  intros p d H. rewrite size_log2.
  assert (0 < d).
  { destruct d as [|d|d]; [simpl in H; lia | lia |].
    destruct H as [_ H]. simpl in H. lia. }
  assert (Z.log2 (Zpos p) = d - 1); [|lia].
  apply Z.log2_unique; [lia|].
  replace (Z.succ (d - 1)) with d by lia. exact H.
Qed.

Lemma shr_1_div2 : forall r, 0 <= shr_m r -> shr_m (shr_1 r) = shr_m r / 2.
Proof.
  intros [[|[p|p|]|p] r s] H; cbn [shr_1 shr_m] in *; try lia.
  - reflexivity.
  - apply Z.div_unique with (r := 1); lia.
  - apply Z.div_unique with (r := 0); lia.
  - reflexivity.
Qed.

Lemma shr_m_iter : forall d r, 0 <= shr_m r ->
  shr_m (iter_pos shr_1 d r) = shr_m r / 2 ^ Zpos d.
Proof.
  intros d r H. rewrite iter_pos_iter.
  induction d as [|d IH] using Pos.peano_ind.
  - simpl. rewrite shr_1_div2 by assumption. reflexivity.
  - rewrite Pos.iter_succ, shr_1_div2, IH.
    + rewrite Pos2Z.inj_succ, Z.pow_succ_r by lia.
      rewrite Z.div_div by lia. f_equal. lia.
    + rewrite IH. apply Z.div_pos; lia.
Qed.

Lemma round_nearest_even_cases : forall q l,
  round_nearest_even q l = q \/ round_nearest_even q l = q + 1.
Proof.
  intros q [|[]]; simpl; auto.
  destruct (Z.even q); auto.
Qed.

(** Rounding a mantissa of more than 53 bits. *)
Lemma binary_round_aux_large : forall p e0,
  53 < Zpos (Pos.size p) -> -1074 <= e0 ->
  exists q',
    (q' = Zpos p / 2 ^ (Zpos (Pos.size p) - 53) \/
     q' = Zpos p / 2 ^ (Zpos (Pos.size p) - 53) + 1) /\
    binary_round_aux prec emax false (Zpos p) e0 loc_Exact
    = if q' <? 2 ^ 53
      then if e0 + (Zpos (Pos.size p) - 53) <=? 971
           then S754_finite false (Z.to_pos q') (e0 + (Zpos (Pos.size p) - 53))
           else S754_infinity false
      else if e0 + (Zpos (Pos.size p) - 53) + 1 <=? 971
           then S754_finite false 4503599627370496
                  (e0 + (Zpos (Pos.size p) - 53) + 1)
           else S754_infinity false.
Proof.
  intros p e0 Hs He.
  set (d := Zpos (Pos.size p)) in *.
  set (sh := d - 53).
  set (q := Zpos p / 2 ^ sh).
  assert (Hq : 2 ^ 52 <= q < 2 ^ 53).
  { pose proof (size_bounds p) as Hb. fold d in Hb.
    assert (Hp : 0 < 2 ^ sh) by (apply Z.pow_pos_nonneg; lia).
    assert (E1 : 2 ^ (d - 1) = 2 ^ sh * 2 ^ 52).
    { rewrite <- Z.pow_add_r by lia. f_equal. unfold sh. lia. }
    assert (E2 : 2 ^ d = 2 ^ sh * 2 ^ 53).
    { rewrite <- Z.pow_add_r by lia. f_equal. unfold sh. lia. }
    split.
    - apply Z.div_le_lower_bound; lia.
    - apply Z.div_lt_upper_bound; lia. }
  unfold binary_round_aux, shr_fexp. cbn [Zdigits2 shr_record_of_loc].
  rewrite digits2_pos_size. fold d.
  replace (d + e0) with (53 + (e0 + sh)) by (unfold sh; lia).
  rewrite fexp_canonical by (unfold sh; lia).
  replace (e0 + sh - e0) with sh by lia.
  assert (Hsh : 0 < sh) by (unfold sh; lia).
  destruct sh as [|shp|shp] eqn:Esh; try lia.
  cbn [shr].
  set (mrs := iter_pos shr_1 shp (Build_shr_record (Zpos p) false false)).
  assert (Hm : shr_m mrs = q).
  { unfold mrs. rewrite shr_m_iter by (simpl; lia). reflexivity. }
  rewrite Hm.
  exists (round_nearest_even q (loc_of_shr_record mrs)).
  split; [apply round_nearest_even_cases|].
  destruct (round_nearest_even_cases q (loc_of_shr_record mrs)) as [E|E];
    rewrite E.
  - (* q' = q *)
    destruct (Z.ltb_spec q (2 ^ 53)); [|lia].
    destruct q as [|pq|pq] eqn:Eq; try lia.
    cbn [Zdigits2]. rewrite digits2_pos_size.
    rewrite (size_unique pq 53) by (simpl; lia).
    rewrite fexp_canonical, Z.sub_diag by lia.
    cbn [shr shr_m Z.to_pos]. change (emax - prec) with 971. reflexivity.
  - destruct (Z.ltb_spec (q + 1) (2 ^ 53)).
    + destruct (q + 1) as [|pq|pq] eqn:Eq; try lia.
      cbn [Zdigits2]. rewrite digits2_pos_size.
      rewrite (size_unique pq 53) by (simpl; lia).
      rewrite fexp_canonical, Z.sub_diag by lia.
      cbn [shr shr_m Z.to_pos]. change (emax - prec) with 971. reflexivity.
    + assert (Eq : q + 1 = 2 ^ 53) by lia.
      rewrite Eq.
      change (Zdigits2 (2 ^ 53)) with 54.
      replace (54 + (e0 + Zpos shp)) with (53 + (e0 + Zpos shp + 1)) by lia.
      rewrite fexp_canonical by lia.
      replace (e0 + Zpos shp + 1 - (e0 + Zpos shp)) with 1 by lia.
      change (2 ^ 53) with 9007199254740992.
      cbn [shr iter_pos shr_1 shr_m].
      change (emax - prec) with 971.
      replace (e0 + Zpos shp + 1) with (e0 + Zpos shp + 1) by lia.
      reflexivity.
Qed.

Lemma leb_finite : forall m1 e1 m2 e2,
  e1 < e2 \/ (e1 = e2 /\ (m1 <= m2)%positive) ->
  SFleb (S754_finite false m1 e1) (S754_finite false m2 e2) = true.
Proof.
  intros m1 e1 m2 e2 H. unfold SFleb, SFcompare.
  destruct H as [H|[-> H]].
  - rewrite (proj2 (Z.compare_lt_iff e1 e2) H). reflexivity.
  - rewrite Z.compare_refl.
    change (Pos.compare_cont Eq m1 m2) with (Pos.compare m1 m2).
    destruct (Pos.compare_spec m1 m2); try reflexivity; lia.
Qed.

Lemma clamp_negative_le : forall v m e,
  signed true v ->
  js_le (if js_lt v zero then zero else v) (S754_finite false m e) = true.
Proof.
  intros [s|s| |s m' e'] m e H; simpl in H; try contradiction; subst s;
    reflexivity.
Qed.

Lemma signed_false_not_lt : forall v, signed false v -> js_lt v zero = false.
Proof.
  intros [s|s| |s m' e'] H; simpl in H; try contradiction; subst s;
    reflexivity.
Qed.

Lemma align_one : forall m e, -52 <= e ->
  fst (shl_align m e (-52)) = shl m (e + 52).
Proof.
  intros m e H. unfold shl_align.
  destruct (-52 - e) as [|d|d] eqn:E; try lia.
  - replace (e + 52) with 0 by lia. reflexivity.
  - replace (e + 52) with (Zpos d) by lia. reflexivity.
Qed.

Lemma bounded_inv : forall m e,
  bounded prec emax m e = true ->
  Z.max (Zpos (Pos.size m) + e - 53) (-1074) = e /\ e <= 971.
Proof.
  intros m e H. unfold bounded, canonical_mantissa in H.
  apply andb_prop in H. destruct H as [H1 H2].
  rewrite digits2_pos_size in H1.
  apply Z.eqb_eq in H1. apply Z.leb_le in H2.
  unfold fexp, emin, prec, emax in *. lia.
Qed.

(** Taking one off a positive number gives at most that number. *)
Lemma sub_one_le_finite : forall m e,
  bounded prec emax m e = true ->
  js_le (decrement (S754_finite false m e)) (S754_finite false m e) = true.
Proof.
  intros m e Hb. destruct (bounded_inv m e Hb) as [Hc He].
  pose proof (size_bounds m) as Hm.
  unfold decrement. cbv zeta.
  destruct (Z.lt_ge_cases e (-52)) as [Hlt|Hge].
  - (* the number is below 1: the difference is negative *)
    apply clamp_negative_le.
    unfold js_sub, one, SFsub.
    replace (Z.min e (-52)) with e by lia.
    unfold shl_align at 1. rewrite Z.sub_diag. cbn [fst cond_Zopp].
    unfold shl_align.
    destruct (e - -52) as [|k|k] eqn:Ek; try lia.
    cbn [fst]. 
    assert (HD : Zpos m - Zpos (Pos.iter xO 4503599627370496%positive k) < 0).
    { rewrite Zpos_iter_xO.
      assert (2 ^ 1 <= 2 ^ Zpos k) by (apply Z.pow_le_mono_r; lia).
      assert (Zpos m < 2 ^ 53).
      { eapply Z.lt_le_trans; [apply Hm|].
        apply Z.pow_le_mono_r; lia. }
      change (2 ^ 53) with (4503599627370496 * 2 ^ 1) in *. nia. }
    destruct (Zpos m - Zpos (Pos.iter xO 4503599627370496%positive k))
      as [|pD|pD]; try lia.
    cbn [binary_normalize]. apply binary_round_signed.
  - (* the number is at least 1 *)
    assert (Hs : Zpos (Pos.size m) = 53) by lia.
    rewrite Hs in Hm. change (53 - 1) with 52 in Hm.
    unfold js_sub, one, SFsub.
    replace (Z.min e (-52)) with (-52) by lia.
    rewrite align_one by lia.
    change (fst (shl_align 4503599627370496 (-52) (-52)))
      with 4503599627370496%positive.
    cbn [cond_Zopp].
    rewrite Zpos_shl by lia.
    set (P := 2 ^ (e + 52)).
    assert (HP : 1 <= P).
    { unfold P. change 1 with (2 ^ 0). apply Z.pow_le_mono_r; lia. }
    change (Zpos 4503599627370496) with (2 ^ 52).
    destruct (Zpos m * P - 2 ^ 52) as [|pD|pD] eqn:ED; try nia.
    + cbn [binary_normalize]. reflexivity.
    + cbn [binary_normalize].
      rewrite signed_false_not_lt by apply binary_round_signed.
      assert (HpD : Zpos pD < Zpos m * P) by lia.
      assert (HpD2 : Zpos pD < 2 ^ (105 + e)).
      { replace (105 + e) with (53 + (e + 52)) by lia.
        rewrite Z.pow_add_r by lia. fold P. nia. }
      pose proof (size_bounds pD) as HbD.
      set (dD := Zpos (Pos.size pD)) in *.
      assert (HdD : dD <= 105 + e).
      { assert (2 ^ (dD - 1) < 2 ^ (105 + e)) by lia.
        apply Z.pow_lt_mono_r_iff in H; lia. }
      assert (HdD0 : 1 <= dD) by (unfold dD; lia).
      unfold binary_round, shl_align.
      rewrite digits2_pos_size. fold dD.
      replace (dD + -52) with (53 + (dD - 105)) by lia.
      rewrite fexp_canonical by lia.
      destruct (dD - 105 - -52) as [|k|k] eqn:Ek.
      * (* exactly 53 bits *)
        rewrite binary_round_aux_canonical;
          [| apply Pos2Z.inj; fold dD; lia | lia].
        apply leb_finite.
        destruct (Z.eq_dec e (-52)) as [Ee|]; [right|left; lia].
        split; [lia|].
        assert (P = 1) by (unfold P; rewrite Ee; reflexivity).
        nia.
      * (* more than 53 bits: rounding *)
        destruct (binary_round_aux_large pD (-52)) as (q' & Hq' & ->);
          [fold dD; lia | lia |].
        fold dD in Hq' |- *.
        set (q := Zpos pD / 2 ^ (dD - 53)) in *.
        assert (Hq : 2 ^ 52 <= q < 2 ^ 53).
        { assert (Hp : 0 < 2 ^ (dD - 53)) by (apply Z.pow_pos_nonneg; lia).
          assert (E1 : 2 ^ (dD - 1) = 2 ^ (dD - 53) * 2 ^ 52).
          { rewrite <- Z.pow_add_r by lia. f_equal. lia. }
          assert (E2 : 2 ^ dD = 2 ^ (dD - 53) * 2 ^ 53).
          { rewrite <- Z.pow_add_r by lia. f_equal. lia. }
          split.
          - apply Z.div_le_lower_bound; lia.
          - apply Z.div_lt_upper_bound; lia. }
        assert (Hqm : dD = 105 + e -> q < Zpos m).
        { intro E. unfold q. apply Z.div_lt_upper_bound.
          - apply Z.pow_pos_nonneg; lia.
          - replace (dD - 53) with (e + 52) by lia. fold P. lia. }
        destruct (Z.ltb_spec q' (2 ^ 53)).
        -- destruct (Z.leb_spec (-52 + (dD - 53)) 971); [|lia].
           apply leb_finite.
           destruct (Z.eq_dec dD (105 + e)) as [E|]; [right|left; lia].
           split; [lia|].
           specialize (Hqm E).
           assert (0 < q') by lia.
           assert (Zpos (Z.to_pos q') = q') by (apply Z2Pos.id; lia).
           lia.
        -- assert (dD <> 105 + e).
           { intro E. specialize (Hqm E). lia. }
           destruct (Z.leb_spec (-52 + (dD - 53) + 1) 971); [|lia].
           apply leb_finite.
           destruct (Z.eq_dec (dD + 1) (105 + e)) as [E|]; [right|left; lia].
           split; [lia|].
           assert (Zpos 4503599627370496 = 2 ^ 52) by reflexivity.
           lia.
      * (* fewer than 53 bits: exact *)
        rewrite binary_round_aux_canonical.
        -- apply leb_finite. left. lia.
        -- apply Pos2Z.inj. rewrite size_iter_xO. fold dD.
           rewrite Pos2Z.inj_add. fold dD. lia.
        -- lia.
Qed.

Lemma decrement_le : forall r,
  valid r -> js_le zero r = true -> js_le (decrement r) r = true.
Proof.
  intros [s|s| |s m e] Hv H; try discriminate.
  - destruct s; reflexivity.
  - destruct s; [discriminate | reflexivity].
  - destruct s; [discriminate|].
    apply sub_one_le_finite. exact Hv.
Qed.

Lemma js_le_refl : forall r, js_le zero r = true -> js_le r r = true.
Proof.
  intros [s|s| |s m e] H; try discriminate.
  - reflexivity.
  - destruct s; reflexivity.
  - destruct s; [discriminate|].
    unfold js_le, SFleb, SFcompare.
    rewrite Z.compare_refl.
    change (Pos.compare_cont Eq m m) with (Pos.compare m m).
    now rewrite Pos.compare_refl.
Qed.

(** ** Basic facts about the operations *)

Lemma completions_app : forall l1 l2,
  completions (l1 ++ l2) = completions l1 ++ completions l2.
Proof. intros l1 l2. unfold completions. apply filter_app. Qed.

Lemma completions_onTick : forall f r a,
  completions (call_of OnTick f r a) = [].
Proof. intros [g|] r a; reflexivity. Qed.

Lemma tickCalls_app : forall l1 l2,
  tickCalls (l1 ++ l2) = tickCalls l1 ++ tickCalls l2.
Proof. intros l1 l2. unfold tickCalls. apply filter_app. Qed.

Lemma tickCalls_onComplete : forall f r a,
  tickCalls (call_of OnComplete f r a) = [].
Proof. intros [g|] r a; reflexivity. Qed.

Lemma invoke_remaining : forall sl f w s,
  remaining (state_of (invoke sl f w s)) = remaining s.
Proof.
  intros sl [g|] w s; simpl; [destruct (throws w g)|]; reflexivity.
Qed.

Lemma invoke_intervalController : forall sl f w s,
  intervalController (state_of (invoke sl f w s)) = intervalController s.
Proof.
  intros sl [g|] w s; simpl; [destruct (throws w g)|]; reflexivity.
Qed.

Lemma invoke_calls : forall sl f w s,
  calls (state_of (invoke sl f w s)) =
  calls s ++ call_of sl f (remaining s) (isActive (intervalController s)).
Proof.
  intros sl [g|] w s; simpl.
  - destruct (throws w g); reflexivity.
  - now rewrite app_nil_r.
Qed.

(** Split a tick on whether [onTick] throws and on its test. *)
Ltac tick_cases w s :=
  unfold tick, completes, onTick_throws, decrement;
  cbv zeta;
  destruct onTick_value as [g|]; cbn [invoke bind];
  [destruct (throws w g); cbn [bind negb andb state_of]|];
  cbn [remaining intervalController calls set_remaining negb andb];
  try match goal with
      | |- context [js_le ?r zero] => destruct (js_le r zero)
      end;
  cbn [state_of].

Lemma tick_remaining : forall w s,
  remaining (state_of (tick w s)) = decrement (remaining s).
Proof.
  intros w s. tick_cases w s;
    rewrite ?invoke_remaining; reflexivity.
Qed.

Lemma tick_intervalController : forall w s,
  intervalController (state_of (tick w s)) =
  if completes w (remaining s)
  then IntervalFn_pause (intervalController s)
  else intervalController s.
Proof.
  intros w s. tick_cases w s;
    rewrite ?invoke_intervalController; reflexivity.
Qed.

Lemma tick_isActive : forall w s,
  isActive (intervalController (state_of (tick w s))) =
  if completes w (remaining s) then false
  else isActive (intervalController s).
Proof.
  intros w s. rewrite tick_intervalController.
  destruct (completes w (remaining s)); reflexivity.
Qed.

Lemma tick_calls : forall w s,
  calls (state_of (tick w s)) =
  calls s
  ++ call_of OnTick onTick_value (decrement (remaining s))
       (isActive (intervalController s))
  ++ (if completes w (remaining s)
      then call_of OnComplete (onComplete_value w)
             (decrement (remaining s)) false
      else []).
Proof.
  intros w s. tick_cases w s;
    rewrite ?invoke_calls; cbn [pause set_intervalController calls
      remaining intervalController IntervalFn_pause isActive call_of];
    rewrite <- ?app_assoc, ?app_nil_r; reflexivity.
Qed.

Lemma tick_has_thrown : forall w s,
  has_thrown (tick w s) =
  onTick_throws w
  || (completes w (remaining s)
      && match onComplete_value w with
         | Some f => throws w f
         | None => false
         end).
Proof.
  intros w s. tick_cases w s;
    cbn [has_thrown orb andb]; try reflexivity;
    destruct (onComplete_value w) as [f|]; cbn [invoke];
    try destruct (throws w f); reflexivity.
Qed.

Lemma fire_active : forall w s,
  isActive (intervalController s) = true ->
  fire w s = state_of (tick w s).
Proof. intros w s H. unfold fire. now rewrite H. Qed.

Lemma fire_idle : forall w s,
  isActive (intervalController s) = false -> fire w s = s.
Proof. intros w s H. unfold fire. now rewrite H. Qed.

Lemma run_idle : forall ws s,
  isActive (intervalController s) = false -> run ws s = s.
Proof.
  induction ws as [|w ws IH]; intros s H; simpl.
  - reflexivity.
  - rewrite fire_idle by assumption. now apply IH.
Qed.

Lemma run_app : forall ws1 ws2 s,
  run (ws1 ++ ws2) s = run ws2 (run ws1 s).
Proof.
  induction ws1 as [|w ws1 IH]; intros ws2 s; simpl.
  - reflexivity.
  - apply IH.
Qed.

Lemma completes_of_Z : forall w n,
  -2 ^ 53 < n - 1 -> n < 2 ^ 53 ->
  completes w (of_Z n) = negb (onTick_throws w) && (n <=? 1).
Proof.
  intros w n Hlo Hhi. unfold completes.
  rewrite decrement_of_Z, js_le_of_Z by lia.
  f_equal.
  destruct (Z.leb_spec (Z.max (n - 1) 0) 0), (Z.leb_spec n 1);
    try reflexivity; lia.
Qed.

(** While more than one unit is left, a period of the scheduler takes
    one unit off, keeps the scheduler running and completes nothing,
    whether or not [onTick] throws. *)
Lemma fire_counting : forall w s n,
  isActive (intervalController s) = true ->
  remaining s = of_Z n ->
  1 < n < 2 ^ 53 ->
  remaining (fire w s) = of_Z (n - 1) /\
  isActive (intervalController (fire w s)) = true /\
  completions (calls (fire w s)) = completions (calls s).
Proof.
  intros w s n Ha Hr Hn. rewrite fire_active by assumption.
  rewrite tick_remaining, tick_isActive, tick_calls, Hr.
  rewrite completes_of_Z, decrement_of_Z by lia.
  destruct (Z.leb_spec n 1); [lia|]. rewrite andb_false_r.
  replace (Z.max (n - 1) 0) with (n - 1) by lia.
  repeat split; [assumption|].
  rewrite !completions_app, completions_onTick. simpl.
  now rewrite app_nil_r.
Qed.

(** The period that finds one unit left completes the countdown, if
    [onTick] returns. *)
Lemma fire_completing : forall w s f,
  isActive (intervalController s) = true ->
  remaining s = of_Z 1 ->
  onComplete_value w = Some f ->
  onTick_throws w = false ->
  remaining (fire w s) = zero /\
  isActive (intervalController (fire w s)) = false /\
  completions (calls (fire w s)) =
  completions (calls s) ++ [mkCall OnComplete f zero false].
Proof.
  intros w s f Ha Hr Hf Ht. rewrite fire_active by assumption.
  rewrite tick_remaining, tick_isActive, tick_calls, Hr, Hf.
  rewrite completes_of_Z, decrement_of_Z, Ht by lia.
  repeat split.
  rewrite !completions_app, completions_onTick. reflexivity.
Qed.

Lemma run_counting : forall ws s n,
  isActive (intervalController s) = true ->
  remaining s = of_Z n ->
  Z.of_nat (length ws) < n < 2 ^ 53 ->
  remaining (run ws s) = of_Z (n - Z.of_nat (length ws)) /\
  isActive (intervalController (run ws s)) = true /\
  completions (calls (run ws s)) = completions (calls s).
Proof.
  induction ws as [|w ws IH]; intros s n Ha Hr Hlen.
  - simpl. rewrite Z.sub_0_r. repeat split; assumption.
  - cbn [run]. cbn [length] in *.
    destruct (fire_counting w s n Ha Hr) as (Hr' & Ha' & Hc); [lia|].
    destruct (IH (fire w s) (n - 1) Ha' Hr') as (Hr2 & Ha2 & Hc2); [lia|].
    repeat split; [|assumption|congruence].
    rewrite Hr2. f_equal. lia.
Qed.

Lemma run_completing : forall k ws s w f,
  isActive (intervalController s) = true ->
  remaining s = of_Z (Z.of_nat (S k)) ->
  Z.of_nat (S k) < 2 ^ 53 ->
  nth_error ws k = Some w ->
  onComplete_value w = Some f ->
  onTick_throws w = false ->
  remaining (run ws s) = zero /\
  isActive (intervalController (run ws s)) = false /\
  completions (calls (run ws s)) =
  completions (calls s) ++ [mkCall OnComplete f zero false].
Proof.
  induction k as [|k IH]; intros ws s w f Ha Hr Hb Hn Hf Ht;
    destruct ws as [|w0 ws]; try discriminate; cbn [run].
  - injection Hn as ->.
    destruct (fire_completing w s f Ha) as (Hr' & Ha' & Hc');
      [exact Hr | assumption | assumption |].
    rewrite run_idle by assumption. auto.
  - cbn [nth_error] in Hn.
    destruct (fire_counting w0 s _ Ha Hr) as (Hr' & Ha' & Hc'); [lia|].
    destruct (IH ws (fire w0 s) w f Ha') as (Hr2 & Ha2 & Hc2);
      try assumption.
    + rewrite Hr'. f_equal. lia.
    + lia.
    + repeat split; [assumption | assumption | congruence].
Qed.


(** Periods of the scheduler from a running state count down the same
    way, whether or not a callback throws. *)
Lemma remaining_after_run : forall ws s n,
  isActive (intervalController s) = true ->
  remaining s = of_Z n ->
  0 <= n < 2 ^ 53 ->
  remaining (run ws s) = of_Z (Z.max (n - Z.of_nat (length ws)) 0).
Proof.
  induction ws as [|w ws IH]; intros s n Ha Hr Hn.
  - simpl. rewrite Hr. f_equal. lia.
  - cbn [run length]. rewrite fire_active by assumption.
    assert (Hr' : remaining (state_of (tick w s))
                  = of_Z (Z.max (n - 1) 0)).
    { rewrite tick_remaining, Hr. apply decrement_of_Z; lia. }
    destruct (isActive (intervalController (state_of (tick w s))))
      eqn:Ha'.
    + rewrite (IH _ (Z.max (n - 1) 0)) by (assumption || lia).
      f_equal. lia.
    + rewrite run_idle by assumption. rewrite Hr'.
      rewrite tick_isActive, Hr, completes_of_Z in Ha' by lia.
      destruct (Z.leb_spec n 1).
      * f_equal. lia.
      * rewrite andb_false_r in Ha'. congruence.
Qed.

Lemma resume_pause : forall s,
  isActive (intervalController s) = true ->
  js_gt (remaining s) zero = true ->
  resume (pause s) = s.
Proof.
  intros [r [a p] l]. simpl. intros -> Hr.
  unfold resume, pause. simpl. rewrite Hr. reflexivity.
Qed.

Lemma pause_idle : forall s,
  isActive (intervalController s) = false -> pause s = s.
Proof. intros [r [a p] l]. simpl. intros ->. reflexivity. Qed.

Lemma resume_inert : forall s,
  js_gt (remaining s) zero = false -> resume s = s.
Proof.
  intros s H. unfold resume. rewrite H.
  destruct (negb (isActive (intervalController s))); reflexivity.
Qed.

(** The operations other than a tick leave the callback log alone. *)
Lemma step_calls : forall w op s,
  op <> OpTick -> calls (step w op s) = calls s.
Proof.
  intros w op s Hop. destruct op; try reflexivity.
  - now contradiction Hop.
  - cbn [step]. unfold resume.
    destruct (negb (isActive (intervalController s))),
      (js_gt (remaining s) zero); reflexivity.
Qed.

Lemma step_remaining_not_nan : forall w op s,
  (forall w', toValue initialCountdown w' <> S754_nan) ->
  remaining s <> S754_nan -> remaining (step w op s) <> S754_nan.
Proof.
  intros w op s Hinit Hs. destruct op; cbn [step].
  - unfold fire. destruct (isActive (intervalController s)).
    + rewrite tick_remaining. now apply decrement_not_nan.
    + assumption.
  - apply Hinit.
  - apply Hinit.
  - apply Hinit.
  - assumption.
  - unfold resume.
    destruct (negb (isActive (intervalController s))),
      (js_gt (remaining s) zero); assumption.
Qed.

Lemma reachable_not_nan : forall s,
  (forall w, toValue initialCountdown w <> S754_nan) ->
  reachable s -> remaining s <> S754_nan.
Proof.
  intros s Hinit Hs. induction Hs as [w|w op s Hs IH].
  - apply Hinit.
  - now apply step_remaining_not_nan.
Qed.

Lemma reachable_exec : forall tr s,
  reachable s -> reachable (exec tr s).
Proof.
  induction tr as [|[w op] tr IH]; intros s Hs; simpl.
  - assumption.
  - apply IH. now constructor.
Qed.

(** ** The countdown value under ticks *)


(** C10, amended.  A tick that finds [remaining] at 0, with both
    callbacks configured and [onTick] returning normally, leaves it at 0,
    calls [onTick], pauses the scheduler and then calls [onComplete],
    although the value was not positive before the tick. *)
Theorem tick_at_zero : forall w s g f,
  js_eq (remaining s) zero = true ->
  onTick_value = Some g ->
  throws w g = false ->
  onComplete_value w = Some f ->
  remaining (state_of (tick w s)) = zero /\
  isActive (intervalController (state_of (tick w s))) = false /\
  calls (state_of (tick w s)) =
  calls s
  ++ [mkCall OnTick g zero (isActive (intervalController s));
      mkCall OnComplete f zero false].
Proof.
  intros w s g f H Hg Ht Hf.
  assert (Hc : completes w (remaining s) = true).
  { unfold completes, onTick_throws.
    rewrite Hg, Ht, (decrement_zero _ H). reflexivity. }
  rewrite tick_remaining, tick_isActive, tick_calls, Hc, Hg, Hf.
  rewrite (decrement_zero _ H). repeat split.
Qed.

(** ** Completion *)


(** ** Invariants of the reachable states *)

(** C3, amended.  When the configured initial value is non-negative
    every time it is read, [remaining >= 0] in every reachable
    state. *)
Theorem reachable_remaining_nonneg :
  (forall w, js_le zero (toValue initialCountdown w) = true) ->
  forall s, reachable s -> js_le zero (remaining s) = true.
Proof.
  intros Hinit s Hs. induction Hs as [w|w op s Hs IH].
  - apply Hinit.
  - destruct op; cbn [step].
    + unfold fire. destruct (isActive (intervalController s)).
      * rewrite tick_remaining. apply decrement_nonneg.
        now apply nonneg_not_nan.
      * assumption.
    + apply Hinit.
    + apply Hinit.
    + apply Hinit.
    + assumption.
    + unfold resume.
      destruct (negb (isActive (intervalController s))),
        (js_gt (remaining s) zero); assumption.
Qed.

(** C4, amended.  When the configured initial value is positive every
    time it is read and [onTick] never throws, [isActive] is true only
    while [remaining > 0], in every state the controller is in between
    two operations. *)
Theorem reachable_active_positive :
  (forall w, js_gt (toValue initialCountdown w) zero = true) ->
  (forall w, onTick_throws w = false) ->
  forall s, reachable s ->
  isActive (intervalController s) = true ->
  js_gt (remaining s) zero = true.
Proof.
  intros Hinit Hthrow s Hs.
  induction Hs as [w|w op s Hs IH].
  - intros _. apply Hinit.
  - assert (Hnan : remaining s <> S754_nan).
    { apply reachable_not_nan; [|exact Hs].
      intro w'. apply positive_not_nan, Hinit. }
    destruct op; cbn [step].
    + unfold fire.
      destruct (isActive (intervalController s)) eqn:Ha.
      * rewrite tick_isActive, tick_remaining.
        unfold completes. rewrite Hthrow. cbn [negb andb].
        destruct (js_le (decrement (remaining s)) zero) eqn:E;
          [discriminate|].
        intros _. apply not_le_positive; [|exact E].
        now apply decrement_not_nan.
      * rewrite Ha. discriminate.
    + intros _. apply Hinit.
    + discriminate.
    + intros _. apply Hinit.
    + discriminate.
    + unfold resume.
      destruct (isActive (intervalController s)) eqn:Ha; cbn [negb].
      * rewrite Ha. exact IH.
      * destruct (js_gt (remaining s) zero) eqn:E;
          [intros _; exact E|].
        rewrite Ha. discriminate.
Qed.

(** ** The imperative controls *)

(** C5.  [start] leaves the scheduler active and [remaining] equal to
    the initial value read at that moment, from any state; the
    optional argument has no effect on the result. *)
Theorem start_running : forall o w s,
  isActive (intervalController (start o w s)) = true /\
  remaining (start o w s) = toValue initialCountdown w /\
  start o w s = start None w s.
Proof. intros o w s. repeat split. Qed.

(** C6.  [stop] leaves the scheduler paused and [remaining] equal to
    the initial value read at that moment, from any state. *)
Theorem stop_idle : forall w s,
  isActive (intervalController (stop w s)) = false /\
  remaining (stop w s) = toValue initialCountdown w.
Proof. intros w s. split; reflexivity. Qed.

(** C7.  [resume] with [remaining] at 0 changes nothing: the state is
    the same, and a paused scheduler stays paused. *)
Theorem resume_at_zero : forall s,
  js_eq (remaining s) zero = true ->
  resume s = s /\
  (isActive (intervalController s) = false ->
   isActive (intervalController (resume s)) = false).
Proof.
  intros s H.
  assert (E : resume s = s).
  { apply resume_inert. apply le_not_gt. now apply eq_zero_le. }
  split; [exact E | now rewrite E].
Qed.

(** C8.  [reset] sets [remaining] to the initial value read at that
    moment and leaves the scheduler and the callback log as they
    were. *)
Theorem reset_frame : forall w s,
  remaining (reset w s) = toValue initialCountdown w /\
  intervalController (reset w s) = intervalController s /\
  calls (reset w s) = calls s.
Proof. intros w s. repeat split. Qed.


(** [start] with an initial value of 0 gives a reachable state in
    which the scheduler runs at [remaining = 0]. *)
Lemma start_at_zero_reachable : forall o w s,
  reachable s ->
  toValue initialCountdown w = zero ->
  reachable (start o w s) /\
  remaining (start o w s) = zero /\
  isActive (intervalController (start o w s)) = true.
Proof.
  intros o w s Hs H0. repeat split.
  - exact (reachable_step w (OpStart o) s Hs).
  - exact H0.
Qed.

(** ** Further properties of the operations *)

(** X1.  [pause] and [resume] undo each other: pausing a running
    countdown with a positive value and resuming it gives the state back,
    and resuming an idle controller and pausing it gives the state
    back. *)
Theorem pause_resume_round_trip : forall s,
  (isActive (intervalController s) = true ->
   js_gt (remaining s) zero = true ->
   resume (pause s) = s) /\
  (isActive (intervalController s) = false ->
   pause (resume s) = s).
Proof.
  intro s. split.
  - apply resume_pause.
  - destruct s as [r [a p] l]. simpl. intros ->.
    unfold resume. simpl. destruct (js_gt r zero); reflexivity.
Qed.

(** X2.  A pause loses no tick and adds none.  Whenever the controller
    is still running at a positive value after some periods (as it is
    from a running state with an integer value below [2 ^ 53], after
    fewer periods than the value), periods that pass while paused change
    nothing, and after [resume] the countdown goes on exactly as if it
    had never been paused. *)
Theorem pause_keeps_the_count : forall s ws1 ws ws2,
  (isActive (intervalController (run ws1 s)) = true ->
   js_gt (remaining (run ws1 s)) zero = true ->
   run ws (pause (run ws1 s)) = pause (run ws1 s) /\
   run ws2 (resume (pause (run ws1 s))) = run (ws1 ++ ws2) s) /\
  (forall n,
     isActive (intervalController s) = true ->
     remaining s = of_Z n ->
     Z.of_nat (length ws1) < n < 2 ^ 53 ->
     run ws (pause (run ws1 s)) = pause (run ws1 s) /\
     run ws2 (resume (pause (run ws1 s))) = run (ws1 ++ ws2) s).
Proof.
  intros s ws1 ws ws2.
  assert (G : isActive (intervalController (run ws1 s)) = true ->
              js_gt (remaining (run ws1 s)) zero = true ->
              run ws (pause (run ws1 s)) = pause (run ws1 s) /\
              run ws2 (resume (pause (run ws1 s))) = run (ws1 ++ ws2) s).
  { intros Ha Hr. split.
    - apply run_idle. reflexivity.
    - rewrite resume_pause by assumption. symmetry. apply run_app. }
  split; [exact G|].
  intros n Ha Hr Hlen.
  destruct (run_counting ws1 s n Ha Hr Hlen) as (Hr1 & Ha1 & _).
  apply G; [exact Ha1|].
  rewrite Hr1, js_gt_of_Z by lia. apply Z.ltb_lt. lia.
Qed.

(** X3.  With an [onTick] callback that returns normally on the
    completing tick, a run from a running state with an integer value
    [N], [0 < N < 2 ^ 53], calls it once per period until the value
    reaches 0 and never after: the calls see [N - 1], [N - 2], ... in
    turn, and each one, the last included, sees the scheduler still
    running. *)
Theorem onTick_each_period : forall ws s g n,
  isActive (intervalController s) = true ->
  remaining s = of_Z n ->
  0 < n < 2 ^ 53 ->
  onTick_value = Some g ->
  (forall w, nth_error ws (Z.to_nat n - 1) = Some w -> throws w g = false) ->
  tickCalls (calls (run ws s))
  = tickCalls (calls s)
    ++ onTick_log g n (Nat.min (length ws) (Z.to_nat n)).
Proof.
  induction ws as [|w ws IH]; intros s g n Ha Hr Hn Hg Ht.
  - simpl. now rewrite app_nil_r.
  - cbn [run length]. rewrite fire_active by assumption.
    assert (Hc : tickCalls (calls (state_of (tick w s)))
                 = tickCalls (calls s)
                   ++ [mkCall OnTick g (of_Z (n - 1)) true]).
    { rewrite tick_calls, Hg, Ha, Hr. cbn [call_of].
      rewrite decrement_of_Z by lia.
      replace (Z.max (n - 1) 0) with (n - 1) by lia.
      rewrite !tickCalls_app.
      destruct (completes w (of_Z n));
        rewrite ?tickCalls_onComplete; cbn [tickCalls filter app];
        now rewrite ?app_nil_r. }
    destruct (Z.leb_spec n 1) as [Hle|Hgt].
    + assert (Hidle : isActive (intervalController (state_of (tick w s)))
                      = false).
      { rewrite tick_isActive, Hr, completes_of_Z by lia.
        unfold onTick_throws. rewrite Hg, (Ht w).
        - destruct (Z.leb_spec n 1); [reflexivity | lia].
        - replace (Z.to_nat n - 1)%nat with 0%nat by lia. reflexivity. }
      rewrite run_idle by assumption. rewrite Hc.
      replace (Z.to_nat n) with 1%nat by lia.
      replace (Nat.min (S (length ws)) 1) with 1%nat by lia.
      reflexivity.
    + assert (Hrun : isActive (intervalController (state_of (tick w s)))
                     = true).
      { rewrite tick_isActive, Hr, completes_of_Z by lia.
        destruct (Z.leb_spec n 1); [lia|].
        now rewrite andb_false_r. }
      assert (Hrem : remaining (state_of (tick w s)) = of_Z (n - 1)).
      { rewrite tick_remaining, Hr, decrement_of_Z by lia.
        f_equal. lia. }
      rewrite (IH (state_of (tick w s)) g (n - 1) Hrun Hrem)
        by (try assumption; try lia;
            intros w' Hw'; apply Ht;
            replace (Z.to_nat n - 1)%nat
              with (S (Z.to_nat (n - 1) - 1)) by lia;
            exact Hw').
      rewrite Hc, <- app_assoc.
      replace (Nat.min (S (length ws)) (Z.to_nat n))
        with (S (Nat.min (length ws) (Z.to_nat (n - 1)))) by lia.
      reflexivity.
Qed.

(** X4.  From any state whose value is not NaN, a tick leaves
    [remaining >= 0], whether or not a callback throws; and when [onTick]
    returns normally it leaves the scheduler running only at a positive
    value. *)
Theorem tick_post : forall w s,
  remaining s <> S754_nan ->
  js_le zero (remaining (state_of (tick w s))) = true /\
  (onTick_throws w = false ->
   isActive (intervalController (state_of (tick w s))) = true ->
   js_gt (remaining (state_of (tick w s))) zero = true).
Proof.
  intros w s Hn. rewrite tick_remaining, tick_isActive. split.
  - now apply decrement_nonneg.
  - intros Ht. unfold completes. rewrite Ht. cbn [negb andb].
    destruct (js_le (decrement (remaining s)) zero) eqn:E;
      [discriminate|].
    intros _. apply not_le_positive; [|exact E].
    now apply decrement_not_nan.
Qed.

(** X5.  With both callbacks configured and [onTick] returning normally,
    the tick has one threshold on integer values below [2 ^ 53] in size.
    At 1 or less (0 and negative values included) it ends at 0, pauses
    the scheduler, and calls [onTick] and then [onComplete]; [onTick]
    sees the scheduler as it was and [onComplete] sees it paused.  Above
    1 it takes one off, leaves the scheduler as it was and calls [onTick]
    only. *)
Theorem tick_threshold : forall w s n g f,
  remaining s = of_Z n ->
  -2 ^ 53 < n - 1 -> n < 2 ^ 53 ->
  onTick_value = Some g ->
  throws w g = false ->
  onComplete_value w = Some f ->
  (n <= 1 ->
   remaining (state_of (tick w s)) = zero /\
   isActive (intervalController (state_of (tick w s))) = false /\
   calls (state_of (tick w s))
   = calls s
     ++ [mkCall OnTick g zero (isActive (intervalController s));
         mkCall OnComplete f zero false]) /\
  (1 < n ->
   remaining (state_of (tick w s)) = of_Z (n - 1) /\
   intervalController (state_of (tick w s)) = intervalController s /\
   calls (state_of (tick w s))
   = calls s
     ++ [mkCall OnTick g (of_Z (n - 1))
           (isActive (intervalController s))]).
Proof.
  intros w s n g f Hr Hlo Hhi Hg Ht Hf.
  assert (Hc : completes w (of_Z n) = (n <=? 1)).
  { rewrite completes_of_Z by lia. unfold onTick_throws.
    now rewrite Hg, Ht. }
  split; intro H;
    rewrite tick_remaining, tick_intervalController, tick_calls,
      Hr, Hc, Hg, Hf, decrement_of_Z by lia.
  - destruct (Z.leb_spec n 1); [|lia].
    replace (Z.max (n - 1) 0) with 0 by lia. repeat split.
  - destruct (Z.leb_spec n 1); [lia|].
    replace (Z.max (n - 1) 0) with (n - 1) by lia.
    rewrite app_nil_r. repeat split.
Qed.

(** X6.  User callbacks are called by ticks only: [reset], [stop],
    [start], [pause] and [resume] leave the log as it was, and so does a
    period of the scheduler that passes while it is paused. *)
Theorem callbacks_only_on_tick : forall w op s,
  op <> OpTick \/ isActive (intervalController s) = false ->
  calls (step w op s) = calls s.
Proof.
  intros w op s [Hop|Hidle].
  - now apply step_calls.
  - destruct op; try (apply step_calls; discriminate).
    cbn [step]. now rewrite fire_idle.
Qed.

Lemma well_observed_call_of : forall sl f r a,
  well_observed (mkCall sl 0%nat r a) ->
  Forall well_observed (call_of sl f r a).
Proof.
  intros sl [g|] r a H; simpl; constructor; [exact H | constructor].
Qed.

(** X7.  When the configured initial value is never NaN, in every
    reachable state each [onComplete] call of the log saw [remaining]
    at 0 and a paused scheduler, and each [onTick] call saw a
    non-negative value and a running scheduler, whether or not a
    callback throws. *)
Theorem calls_well_observed : forall s,
  (forall w, toValue initialCountdown w <> S754_nan) ->
  reachable s -> Forall well_observed (calls s).
Proof.
  intros s Hinit Hs. induction Hs as [w|w op s Hs IH].
  - constructor.
  - destruct op; try (rewrite step_calls by discriminate; exact IH).
    cbn [step]. unfold fire.
    destruct (isActive (intervalController s)) eqn:Ha; [|exact IH].
    assert (Hn : remaining s <> S754_nan)
      by (now apply reachable_not_nan).
    rewrite tick_calls, Ha.
    apply Forall_app. split; [exact IH|].
    apply Forall_app. split.
    + apply well_observed_call_of. unfold well_observed. simpl.
      split; [now apply decrement_nonneg | reflexivity].
    + destruct (completes w (remaining s)) eqn:Hc; [|constructor].
      apply well_observed_call_of. unfold well_observed. simpl.
      split; [|reflexivity].
      unfold completes in Hc. apply andb_prop in Hc. destruct Hc as [_ Hc].
      apply le_le_eq; [exact Hc | now apply decrement_nonneg].
Qed.

(** X8.  When neither callback is configured (for instance when the
    options are omitted), no reachable state has a call in its log. *)
Theorem no_callbacks_no_calls : forall s,
  onTick_value = None ->
  (forall w, onComplete_value w = None) ->
  reachable s -> calls s = [].
Proof.
  intros s Ht Hc Hs. induction Hs as [w|w op s Hs IH].
  - reflexivity.
  - destruct op; try (rewrite step_calls by discriminate; exact IH).
    cbn [step]. unfold fire.
    destruct (isActive (intervalController s)); [|exact IH].
    rewrite tick_calls, Ht, Hc, IH.
    destruct (completes w (remaining s)); reflexivity.
Qed.

(** X9.  [start] and [stop] overwrite whatever [reset], [stop], [start],
    [pause] or [resume] did just before them. *)
Theorem start_stop_absorb : forall o w w' op s,
  op <> OpTick ->
  start o w (step w' op s) = start o w s /\
  stop w (step w' op s) = stop w s.
Proof.
  intros o w w' op s Hop.
  destruct op; try (split; reflexivity).
  - now contradiction Hop.
  - cbn [step]. unfold resume.
    destruct (negb (isActive (intervalController s))),
      (js_gt (remaining s) zero); split; reflexivity.
Qed.

(** X10.  [resume] right after [stop] is [start] when the initial value
    read by [stop] is positive, and does nothing otherwise. *)
Theorem resume_after_stop : forall o w s,
  resume (stop w s)
  = if js_gt (toValue initialCountdown w) zero
    then start o w s else stop w s.
Proof.
  intros o w s. unfold resume, stop, start, reset, pause. simpl.
  destruct (js_gt (toValue initialCountdown w) zero); reflexivity.
Qed.

(** X11.  [start] after a completed run gives a second run: when the
    first run starts at an integer value and the initial value read by
    [start] is an integer, both positive and below [2 ^ 53], and on the
    completing tick of each run [onTick] returns normally and
    [onComplete] is configured, the two runs together call [onComplete]
    exactly twice, each time at 0 with the scheduler paused, and end idle
    at 0. *)
Theorem restart_after_completion :
  forall s n1 ws1 w1 f1 o w n2 ws2 w2 f2,
  isActive (intervalController s) = true ->
  remaining s = of_Z n1 ->
  0 < n1 < 2 ^ 53 ->
  nth_error ws1 (Z.to_nat n1 - 1) = Some w1 ->
  onComplete_value w1 = Some f1 ->
  onTick_throws w1 = false ->
  toValue initialCountdown w = of_Z n2 ->
  0 < n2 < 2 ^ 53 ->
  nth_error ws2 (Z.to_nat n2 - 1) = Some w2 ->
  onComplete_value w2 = Some f2 ->
  onTick_throws w2 = false ->
  completions (calls (run ws2 (start o w (run ws1 s))))
  = completions (calls s)
    ++ [mkCall OnComplete f1 zero false; mkCall OnComplete f2 zero false] /\
  remaining (run ws2 (start o w (run ws1 s))) = zero /\
  isActive (intervalController (run ws2 (start o w (run ws1 s)))) = false.
Proof.
  intros s n1 ws1 w1 f1 o w n2 ws2 w2 f2
    Ha Hr1 Hn1 Hw1 Hf1 Ht1 Hr2 Hn2 Hw2 Hf2 Ht2.
  destruct (run_completing (Z.to_nat n1 - 1)%nat ws1 s w1 f1 Ha)
    as (_ & _ & Hc1); try assumption.
  { rewrite Hr1. f_equal. lia. }
  { lia. }
  destruct (run_completing (Z.to_nat n2 - 1)%nat ws2
              (start o w (run ws1 s)) w2 f2)
    as (Hr & Ha2 & Hc2); try assumption.
  { reflexivity. }
  { cbn [start reset set_remaining set_intervalController remaining].
    rewrite Hr2. f_equal. lia. }
  { lia. }
  repeat split; try assumption.
  rewrite Hc2. cbn [start reset set_remaining set_intervalController calls].
  rewrite Hc1, <- app_assoc. reflexivity.
Qed.

(** X12.  [reset] in the middle of a run restarts the count without
    pausing it: from a running state with an integer value below
    [2 ^ 53], after fewer periods than the value, the scheduler keeps
    running and the value after [k] more periods is [max (N - k) 0] for
    the integer initial value [N], [0 <= N < 2 ^ 53], read by [reset]. *)
Theorem reset_mid_run : forall s n ws1 w m ws2,
  isActive (intervalController s) = true ->
  remaining s = of_Z n ->
  Z.of_nat (length ws1) < n < 2 ^ 53 ->
  toValue initialCountdown w = of_Z m ->
  0 <= m < 2 ^ 53 ->
  isActive (intervalController (reset w (run ws1 s))) = true /\
  remaining (run ws2 (reset w (run ws1 s)))
  = of_Z (Z.max (m - Z.of_nat (length ws2)) 0).
Proof.
  intros s n ws1 w m ws2 Ha Hr Hlen Hinit Hm.
  destruct (run_counting ws1 s n Ha Hr Hlen) as (_ & Ha1 & _).
  split.
  - exact Ha1.
  - apply remaining_after_run; [exact Ha1 | exact Hinit | exact Hm].
Qed.

(** X13.  Only reading the initial value can raise the countdown: after
    any operation on a state whose value is a number of the language at
    0 or above, the value is at most what it was, or it is the initial
    value just read; and [tick], [pause] and [resume] never raise it. *)
Theorem remaining_raised_only_by_reset : forall w op s,
  valid (remaining s) ->
  js_le zero (remaining s) = true ->
  (js_le (remaining (step w op s)) (remaining s) = true \/
   remaining (step w op s) = toValue initialCountdown w) /\
  (passive op = true ->
   js_le (remaining (step w op s)) (remaining s) = true).
Proof.
  intros w op s Hv H0.
  pose proof (js_le_refl _ H0) as Hrefl.
  assert (Hres : remaining (resume s) = remaining s).
  { unfold resume.
    destruct (negb (isActive (intervalController s))),
      (js_gt (remaining s) zero); reflexivity. }
  assert (Hfire : js_le (remaining (fire w s)) (remaining s) = true).
  { unfold fire. destruct (isActive (intervalController s)).
    - rewrite tick_remaining. now apply decrement_le.
    - exact Hrefl. }
  destruct op; cbn [step passive]; split;
    try discriminate; try (intros _);
    try (right; reflexivity); try (left);
    rewrite ?Hres; try exact Hfire; exact Hrefl.
Qed.

(** X14.  [resume] never pauses, never touches the value or the log, and
    is idempotent; afterwards the scheduler runs exactly when it ran
    before or the value is positive. *)
Theorem resume_spec : forall s,
  isActive (intervalController (resume s))
  = (isActive (intervalController s) || js_gt (remaining s) zero) /\
  remaining (resume s) = remaining s /\
  calls (resume s) = calls s /\
  resume (resume s) = resume s.
Proof.
  intros [r [a p] l]. unfold resume. simpl.
  destruct a, (js_gt r zero) eqn:E; simpl; rewrite ?E; repeat split.
Qed.

(** X15.  A finished countdown stays finished: in an idle state with
    [remaining <= 0], no sequence of scheduler periods, [pause] and
    [resume] changes anything; only [reset], [stop] or [start] can. *)
Theorem finished_is_stable : forall tr s,
  isActive (intervalController s) = false ->
  js_le (remaining s) zero = true ->
  (forall w op, In (w, op) tr -> passive op = true) ->
  exec tr s = s.
Proof.
  induction tr as [|[w op] tr IH]; intros s Ha Hr Hp.
  - reflexivity.
  - cbn [exec].
    assert (E : step w op s = s).
    { assert (Hop : passive op = true) by (apply (Hp w); now left).
      destruct op; try discriminate; cbn [step].
      - now apply fire_idle.
      - now apply pause_idle.
      - apply resume_inert. now apply le_not_gt. }
    rewrite E. apply IH; try assumption.
    intros w' op' Hin. apply (Hp w'). now right.
Qed.

Lemma completions_call_of_length : forall f r a,
  (length (completions (call_of OnComplete f r a)) <= 1)%nat.
Proof. intros [g|] r a; simpl; lia. Qed.

(** One operation adds at most one completion, and only by stopping a
    running scheduler or with an operation that can start it. *)
Lemma step_completions_budget : forall w op s,
  (length (completions (calls (step w op s)))
   + Nat.b2n (isActive (intervalController (step w op s)))
   <= length (completions (calls s))
      + Nat.b2n (isActive (intervalController s))
      + Nat.b2n (activates op))%nat.
Proof.
  intros w op s.
  destruct op; try (rewrite step_calls by discriminate);
    cbn [step activates Nat.b2n].
  - unfold fire. destruct (isActive (intervalController s)) eqn:Ha.
    + rewrite tick_calls, tick_isActive, Ha, !completions_app,
        completions_onTick, !length_app.
      destruct (completes w (remaining s)); cbn [Nat.b2n length].
      * pose proof (completions_call_of_length (onComplete_value w)
                      (decrement (remaining s)) false).
        lia.
      * simpl. lia.
    + rewrite Ha. simpl. lia.
  - cbn [reset set_remaining intervalController]. lia.
  - simpl. lia.
  - simpl. lia.
  - simpl. lia.
  - destruct (isActive (intervalController (resume s))); simpl; lia.
Qed.

(** X16.  [onComplete] is called at most once per activation: over any
    sequence of operations, the number of [onComplete] calls added is at
    most the number of [start] and [resume] operations, plus one if the
    scheduler was running at the beginning. *)
Theorem completions_bounded_by_activations : forall tr s,
  (length (completions (calls (exec tr s)))
   + Nat.b2n (isActive (intervalController (exec tr s)))
   <= length (completions (calls s))
      + Nat.b2n (isActive (intervalController s))
      + activations tr)%nat.
Proof.
  induction tr as [|[w op] tr IH]; intro s.
  - simpl. lia.
  - cbn [exec]. specialize (IH (step w op s)).
    pose proof (step_completions_budget w op s) as Hstep.
    unfold activations in *. cbn [filter snd].
    destruct (activates op); cbn [length Nat.b2n] in *; lia.
Qed.

(** ** Exceptions and NaN *)

Lemma run_invariant : forall (P : Countdown -> Prop),
  (forall w s, P s -> P (fire w s)) ->
  forall ws s, P s -> P (run ws s).
Proof.
  intros P Hstep. induction ws as [|w ws IH]; intros s Hs; simpl.
  - exact Hs.
  - apply IH, Hstep, Hs.
Qed.

(** X17.  An [onTick] that throws cuts the tick short: the new value is
    already stored, but the scheduler is not paused and [onComplete] is
    not called, and the exception leaves the tick.  So with an [onTick]
    that always throws the scheduler never pauses by itself and
    [onComplete] is never called, however many periods pass. *)
Theorem throwing_onTick_never_completes : forall g w s ws,
  onTick_value = Some g ->
  (forall w', throws w' g = true) ->
  (has_thrown (tick w s) = true /\
   remaining (state_of (tick w s)) = decrement (remaining s) /\
   intervalController (state_of (tick w s)) = intervalController s /\
   calls (state_of (tick w s))
   = calls s ++ [mkCall OnTick g (decrement (remaining s))
                   (isActive (intervalController s))]) /\
  (isActive (intervalController s) = true ->
   isActive (intervalController (run ws s)) = true /\
   completions (calls (run ws s)) = completions (calls s)).
Proof.
  intros g w s ws Hg Ht.
  assert (Hc : forall w' r, completes w' r = false).
  { intros w' r. unfold completes, onTick_throws. now rewrite Hg, Ht. }
  split.
  - rewrite tick_remaining, tick_intervalController, tick_calls, Hc, Hg.
    cbn [call_of]. rewrite app_nil_r. repeat split.
    rewrite tick_has_thrown. unfold onTick_throws.
    now rewrite Hg, Ht.
  - intro Ha.
    apply (run_invariant
             (fun s' => isActive (intervalController s') = true /\
                        completions (calls s') = completions (calls s)));
      [|split; [exact Ha | reflexivity]].
    intros w' s' [Ha' Hc']. rewrite fire_active by assumption.
    rewrite tick_isActive, tick_calls, Hc.
    split; [exact Ha'|].
    rewrite !completions_app, completions_onTick. simpl.
    now rewrite app_nil_r.
Qed.

(** X18.  A countdown whose value is NaN never finishes: every tick
    leaves NaN, so a running scheduler keeps running and [onComplete] is
    never called, however many periods pass. *)
Theorem nan_never_completes : forall s ws,
  remaining s = S754_nan ->
  isActive (intervalController s) = true ->
  remaining (run ws s) = S754_nan /\
  isActive (intervalController (run ws s)) = true /\
  completions (calls (run ws s)) = completions (calls s).
Proof.
  intros s ws Hr Ha.
  apply (run_invariant
           (fun s' => remaining s' = S754_nan /\
                      isActive (intervalController s') = true /\
                      completions (calls s') = completions (calls s)));
    [|repeat split; assumption].
  intros w' s' (Hr' & Ha' & Hc'). rewrite fire_active by assumption.
  assert (Hc : completes w' (remaining s') = false).
  { unfold completes. rewrite Hr'. cbn. apply andb_false_r. }
  rewrite tick_remaining, tick_isActive, tick_calls, Hc, Hr'.
  repeat split; [exact Ha'|].
  rewrite !completions_app, completions_onTick. simpl.
  now rewrite app_nil_r.
Qed.

(** X19.  An [onComplete] that throws does so after the scheduler is
    paused: on a completing tick the value is stored, the scheduler is
    paused and the call is in the log, and the exception leaves the
    tick. *)
Theorem throwing_onComplete_after_pause : forall w s f,
  completes w (remaining s) = true ->
  onComplete_value w = Some f ->
  throws w f = true ->
  has_thrown (tick w s) = true /\
  isActive (intervalController (state_of (tick w s))) = false /\
  completions (calls (state_of (tick w s)))
  = completions (calls s)
    ++ [mkCall OnComplete f (decrement (remaining s)) false].
Proof.
  intros w s f Hc Hf Ht.
  rewrite tick_has_thrown, tick_isActive, tick_calls, Hc, Hf, Ht.
  rewrite !completions_app, completions_onTick. cbn [call_of app].
  repeat split. apply orb_true_r.
Qed.

End UseCountdown.

End Reactive.

Arguments Plain {World T} v.
Arguments OfRef {World T} read.
Arguments Source {World T} r.
Arguments Getter {World T} get.
Arguments unref {World T} r w.
Arguments toValue {World T} r w.
Arguments mkOptions {World} interval onComplete onTick immediate.
Arguments isActive {World} i.
Arguments remaining {World} c.
Arguments intervalController {World} c.
Arguments calls {World} c.
Arguments state_of {World} o.
Arguments has_thrown {World} o.
Arguments immediate_or_default {World} options.
Arguments onTick_value {World} options.
Arguments onComplete_value {World} options w.
Arguments onTick_throws {World} throws options w.
Arguments completes {World} throws options w r.
Arguments pause {World} s.
Arguments tick {World} throws options w s.
Arguments useCountdown {World} initialCountdown options w.
Arguments reset {World} initialCountdown w s.
Arguments stop {World} initialCountdown w s.
Arguments resume {World} s.
Arguments start {World} initialCountdown _ w s.
Arguments fire {World} throws options w s.
Arguments ticks {World} throws options ws s.
Arguments run {World} throws options ws s.
Arguments OpTick {World}.
Arguments OpReset {World}.
Arguments OpStop {World}.
Arguments OpStart {World} override.
Arguments OpPause {World}.
Arguments OpResume {World}.
Arguments step {World} throws initialCountdown options w op s.
Arguments exec {World} throws initialCountdown options tr s.
Arguments reachable {World} throws initialCountdown options _.
Arguments passive {World} op.
Arguments activates {World} op.
Arguments activations {World} tr.

(** * Scenarios

    Static configurations: nothing outside the controller changes, so the
    world is [unit]. *)

(** A constant, integer initial countdown value. *)
Local Abbreviation const n := (Source (World:=unit) (Plain (of_Z n%Z))).

(** Options with both callbacks ([onTick] is function 5, [onComplete] is
    function 7) and the given [immediate]. *)
Local Abbreviation callbacks imm :=
  (Some (mkOptions (World:=unit) None (Some (Plain 7%nat)) (Some 5%nat) imm)).

(** Callbacks that always return, and an [onTick] that always throws. *)
Local Abbreviation quiet := (fun (_ : unit) (_ : Fn) => false).

Local Abbreviation faulty := (fun (_ : unit) (g : Fn) => Nat.eqb g 5).

(** [initialCountdown = 3], [immediate = true]: after three periods the
    value is 0, [onComplete] was called once and the scheduler is
    paused. *)
Example countdown_from_three :
  let s := run quiet (callbacks (Some true)) [tt; tt; tt]
             (useCountdown (const 3) (callbacks (Some true)) tt) in
  remaining s = zero /\
  isActive (intervalController s) = false /\
  completions (calls s) = [mkCall OnComplete 7%nat zero false] /\
  length (tickCalls (calls s)) = 3%nat.
Proof. repeat split. Qed.

(** A fourth period changes nothing. *)
Example no_fourth_tick :
  run quiet (callbacks (Some true)) [tt; tt; tt; tt]
    (useCountdown (const 3) (callbacks (Some true)) tt)
  = run quiet (callbacks (Some true)) [tt; tt; tt]
      (useCountdown (const 3) (callbacks (Some true)) tt).
Proof. reflexivity. Qed.

(** [immediate = false]: idle, and periods of the scheduler do nothing
    until [start] or [resume]. *)
Example idle_until_started :
  let s := useCountdown (const 3) (callbacks (Some false)) tt in
  isActive (intervalController s) = false /\
  run quiet (callbacks (Some false)) [tt; tt] s = s /\
  remaining (run quiet (callbacks (Some false)) [tt; tt] (resume s))
  = of_Z 1 /\
  remaining (run quiet (callbacks (Some false)) [tt; tt]
               (start (const 3) None tt s)) = of_Z 1.
Proof. repeat split. Qed.

(** [resume] after natural completion leaves the controller idle. *)
Example resume_after_completion :
  let s := run quiet (callbacks (Some true)) [tt; tt; tt]
             (useCountdown (const 3) (callbacks (Some true)) tt) in
  isActive (intervalController (resume s)) = false.
Proof. reflexivity. Qed.

(** [stop] at [remaining = 1]: a following [reset] is redundant. *)
Example stop_then_reset :
  let s := run quiet (callbacks (Some true)) [tt; tt]
             (useCountdown (const 3) (callbacks (Some true)) tt) in
  remaining s = of_Z 1 /\
  reset (const 3) tt (stop (const 3) tt s) = stop (const 3) tt s /\
  isActive (intervalController (stop (const 3) tt s)) = false.
Proof. repeat split. Qed.

(** A run that [pause] ends before the value reaches 0 completes
    nothing. *)
Example paused_run_completes_nothing :
  let s := pause (run quiet (callbacks None) [tt]
                    (start (const 3) None tt
                       (useCountdown (const 3) (callbacks None) tt))) in
  isActive (intervalController s) = false /\
  remaining s = of_Z 2 /\
  completions (calls s) = [].
Proof. repeat split. Qed.

(** With an [onTick] that throws, a countdown from 1 stores 0 but is
    neither paused nor completed. *)
Example throwing_onTick_from_one :
  let s := run faulty (callbacks None) [tt; tt]
             (start (const 1) None tt
                (useCountdown (const 1) (callbacks None) tt)) in
  remaining s = zero /\
  isActive (intervalController s) = true /\
  completions (calls s) = [] /\
  length (tickCalls (calls s)) = 2%nat.
Proof. repeat split. Qed.

(** Above [2 ^ 53] the decrement is rounded away: two ticks from
    [2 ^ 54] leave [2 ^ 54]. *)
Example ticks_from_two_to_the_54 :
  remaining (ticks quiet (callbacks None) [tt; tt]
               (useCountdown (const (2 ^ 54)) (callbacks None) tt))
  = of_Z (2 ^ 54).
Proof. reflexivity. Qed.

(** * Instances of the theorems, and where the stated properties fail *)

(** The scenario's options, its controller before [start], and right
    after [start]. *)
Local Abbreviation opts := (callbacks None).

Local Abbreviation fresh n := (useCountdown (const n) opts tt).

Local Abbreviation started n := (start (const n) None tt (fresh n)).



(** C10 fails as stated: with an [onTick] that throws, a tick at 0
    leaves the scheduler running and does not call [onComplete]. *)
Lemma throwing_onTick_counterexample :
  ~ (forall s,
       js_eq (remaining s) zero = true ->
       remaining (state_of (tick faulty opts tt s)) = zero /\
       isActive (intervalController (state_of (tick faulty opts tt s)))
       = false /\
       completions (calls (state_of (tick faulty opts tt s)))
       <> completions (calls s)).
Proof.
  intro H.
  destruct (H (started 0) eq_refl) as (_ & Ha & _).
  vm_compute in Ha. discriminate.
Qed.

Lemma tick_at_zero_witness :
  (js_eq (remaining (started 0)) zero = true /\
   onTick_value opts = Some 5%nat /\
   quiet tt 5%nat = false /\
   onComplete_value opts tt = Some 7%nat) /\
  (remaining (state_of (tick quiet opts tt (started 0))) = zero /\
   isActive (intervalController (state_of (tick quiet opts tt (started 0))))
   = false /\
   calls (state_of (tick quiet opts tt (started 0)))
   = calls (started 0)
     ++ [mkCall OnTick 5%nat zero
           (isActive (intervalController (started 0)));
         mkCall OnComplete 7%nat zero false]).
Proof.
  split.
  - repeat split.
  - apply tick_at_zero; reflexivity.
Defined.



(** C3 fails as stated: a negative initial value is stored as it is. *)
Lemma negative_initial_value_counterexample :
  ~ (forall s,
       reachable quiet (const (-5)) None s ->
       js_le zero (remaining s) = true).
Proof.
  intro H.
  specialize (H _ (reachable_init unit quiet (const (-5)) None tt)).
  vm_compute in H. discriminate.
Qed.

Lemma reachable_remaining_nonneg_witness :
  ((forall w : unit, js_le zero (toValue (const 3) w) = true) /\
   reachable quiet (const 3) opts
     (exec quiet (const 3) opts
        [(tt, OpStart None); (tt, OpTick); (tt, OpPause); (tt, OpReset)]
        (fresh 3))) /\
  js_le zero
    (remaining
       (exec quiet (const 3) opts
          [(tt, OpStart None); (tt, OpTick); (tt, OpPause); (tt, OpReset)]
          (fresh 3))) = true.
Proof.
  assert (Hinit : forall w : unit, js_le zero (toValue (const 3) w) = true).
  { intro w. reflexivity. }
  assert (R : reachable quiet (const 3) opts
                (exec quiet (const 3) opts
                   [(tt, OpStart None); (tt, OpTick); (tt, OpPause);
                    (tt, OpReset)]
                   (fresh 3))).
  { apply reachable_exec. apply reachable_init. }
  split.
  - split; assumption.
  - exact (reachable_remaining_nonneg unit quiet (const 3) opts
             Hinit _ R).
Defined.

(** C4 fails as stated: [start] with an initial value of 0 leaves the
    scheduler active at [remaining = 0]. *)
Lemma active_at_zero_counterexample :
  ~ (forall s,
       reachable quiet (const 0) None s ->
       isActive (intervalController s) = true ->
       js_gt (remaining s) zero = true).
Proof.
  intro H.
  assert (R : reachable quiet (const 0) None
                (step quiet (const 0) None tt (OpStart None)
                   (useCountdown (const 0) None tt))).
  { apply reachable_step. apply reachable_init. }
  specialize (H _ R eq_refl). vm_compute in H. discriminate.
Qed.

Lemma reachable_active_positive_witness :
  ((forall w : unit, js_gt (toValue (const 3) w) zero = true) /\
   (forall w : unit, onTick_throws quiet opts w = false) /\
   reachable quiet (const 3) opts
     (exec quiet (const 3) opts [(tt, OpStart None); (tt, OpTick)]
        (fresh 3)) /\
   isActive (intervalController
               (exec quiet (const 3) opts
                  [(tt, OpStart None); (tt, OpTick)] (fresh 3))) = true) /\
  js_gt (remaining
           (exec quiet (const 3) opts [(tt, OpStart None); (tt, OpTick)]
              (fresh 3))) zero = true.
Proof.
  assert (Hinit : forall w : unit, js_gt (toValue (const 3) w) zero = true).
  { intro w. reflexivity. }
  assert (Hq : forall w : unit, onTick_throws quiet opts w = false).
  { intro w. reflexivity. }
  assert (R : reachable quiet (const 3) opts
                (exec quiet (const 3) opts
                   [(tt, OpStart None); (tt, OpTick)] (fresh 3))).
  { apply reachable_exec. apply reachable_init. }
  split.
  - repeat split; assumption.
  - exact (reachable_active_positive unit quiet (const 3) opts
             Hinit Hq _ R eq_refl).
Defined.

Lemma resume_at_zero_witness :
  js_eq (remaining (run quiet opts [tt] (started 1))) zero = true /\
  (resume (run quiet opts [tt] (started 1))
   = run quiet opts [tt] (started 1) /\
   (isActive (intervalController (run quiet opts [tt] (started 1)))
    = false ->
    isActive (intervalController
                (resume (run quiet opts [tt] (started 1)))) = false)).
Proof.
  split.
  - reflexivity.
  - apply resume_at_zero. reflexivity.
Defined.



(** * Instances of the further properties *)

Lemma pause_resume_round_trip_witness :
  ((isActive (intervalController (started 3)) = true /\
    js_gt (remaining (started 3)) zero = true) /\
   resume (pause (started 3)) = started 3) /\
  (isActive (intervalController (fresh 3)) = false /\
   pause (resume (fresh 3)) = fresh 3).
Proof.
  split.
  - split; [split; reflexivity|].
    apply (proj1 (pause_resume_round_trip unit (started 3))); reflexivity.
  - split; [reflexivity|].
    apply (proj2 (pause_resume_round_trip unit (fresh 3))). reflexivity.
Defined.

Lemma pause_keeps_the_count_witness :
  ((isActive (intervalController (run quiet opts [tt] (started 3))) = true /\
    js_gt (remaining (run quiet opts [tt] (started 3))) zero = true) /\
   (isActive (intervalController (started 3)) = true /\
    remaining (started 3) = of_Z 3 /\
    Z.of_nat (length [tt]) < 3 < 2 ^ 53)) /\
  (run quiet opts [tt; tt] (pause (run quiet opts [tt] (started 3)))
   = pause (run quiet opts [tt] (started 3)) /\
   run quiet opts [tt; tt] (resume (pause (run quiet opts [tt] (started 3))))
   = run quiet opts ([tt] ++ [tt; tt]) (started 3)).
Proof.
  split.
  - split; [split; reflexivity|].
    split; [reflexivity|]. split; [reflexivity | simpl; lia].
  - apply (proj2 (pause_keeps_the_count unit quiet opts (started 3)
                    [tt] [tt; tt] [tt; tt]) 3);
      [reflexivity | reflexivity | simpl; lia].
Defined.

Lemma onTick_each_period_witness :
  (isActive (intervalController (started 3)) = true /\
   remaining (started 3) = of_Z 3 /\
   0 < 3 < 2 ^ 53 /\
   onTick_value opts = Some 5%nat /\
   (forall w : unit,
      nth_error [tt; tt; tt; tt; tt] (Z.to_nat 3 - 1) = Some w ->
      quiet w 5%nat = false)) /\
  tickCalls (calls (run quiet opts [tt; tt; tt; tt; tt] (started 3)))
  = tickCalls (calls (started 3))
    ++ onTick_log 5%nat 3
         (Nat.min (length [tt; tt; tt; tt; tt]) (Z.to_nat 3)).
Proof.
  split.
  - split; [reflexivity|]. split; [reflexivity|]. split; [lia|].
    split; [reflexivity|]. intros w _. reflexivity.
  - apply onTick_each_period; try reflexivity; lia.
Defined.

Lemma tick_post_witness :
  (remaining (started 3) <> S754_nan /\
   onTick_throws quiet opts tt = false /\
   isActive (intervalController (state_of (tick quiet opts tt (started 3))))
   = true) /\
  (js_le zero (remaining (state_of (tick quiet opts tt (started 3)))) = true /\
   js_gt (remaining (state_of (tick quiet opts tt (started 3)))) zero = true).
Proof.
  assert (Hn : remaining (started 3) <> S754_nan) by discriminate.
  split.
  - split; [exact Hn | split; reflexivity].
  - destruct (tick_post unit quiet opts tt (started 3) Hn) as [H1 H2].
    split; [exact H1 | apply H2; reflexivity].
Defined.

Lemma tick_threshold_witness :
  ((remaining (started (-2)) = of_Z (-2) /\
    -2 ^ 53 < -2 - 1 /\ -2 < 2 ^ 53 /\
    onTick_value opts = Some 5%nat /\
    quiet tt 5%nat = false /\
    onComplete_value opts tt = Some 7%nat /\
    -2 <= 1) /\
   remaining (state_of (tick quiet opts tt (started (-2)))) = zero /\
   isActive (intervalController
               (state_of (tick quiet opts tt (started (-2))))) = false /\
   calls (state_of (tick quiet opts tt (started (-2))))
   = calls (started (-2))
     ++ [mkCall OnTick 5%nat zero
           (isActive (intervalController (started (-2))));
         mkCall OnComplete 7%nat zero false]) /\
  ((remaining (started 3) = of_Z 3 /\
    -2 ^ 53 < 3 - 1 /\ 3 < 2 ^ 53 /\
    1 < 3) /\
   remaining (state_of (tick quiet opts tt (started 3))) = of_Z (3 - 1) /\
   intervalController (state_of (tick quiet opts tt (started 3)))
   = intervalController (started 3) /\
   calls (state_of (tick quiet opts tt (started 3)))
   = calls (started 3)
     ++ [mkCall OnTick 5%nat (of_Z (3 - 1))
           (isActive (intervalController (started 3)))]).
Proof.
  split.
  - split; [repeat split; lia|].
    apply (proj1 (tick_threshold unit quiet opts tt (started (-2)) (-2)
                    5%nat 7%nat eq_refl ltac:(lia) ltac:(lia)
                    eq_refl eq_refl eq_refl)).
    lia.
  - split; [repeat split; lia|].
    apply (proj2 (tick_threshold unit quiet opts tt (started 3) 3
                    5%nat 7%nat eq_refl ltac:(lia) ltac:(lia)
                    eq_refl eq_refl eq_refl)).
    lia.
Defined.

Lemma callbacks_only_on_tick_witness :
  (OpStop (World:=unit) <> OpTick \/
   isActive (intervalController (run quiet opts [tt] (started 3))) = false) /\
  calls (step quiet (const 3) opts tt OpStop (run quiet opts [tt] (started 3)))
  = calls (run quiet opts [tt] (started 3)).
Proof.
  assert (H : OpStop (World:=unit) <> OpTick \/
              isActive (intervalController
                          (run quiet opts [tt] (started 3))) = false).
  { left. discriminate. }
  split.
  - exact H.
  - exact (callbacks_only_on_tick unit quiet (const 3) opts tt OpStop _ H).
Defined.

Lemma calls_well_observed_witness :
  ((forall w : unit, toValue (const 2) w <> S754_nan) /\
   reachable quiet (const 2) opts
     (exec quiet (const 2) opts
        [(tt, OpStart None); (tt, OpTick); (tt, OpTick); (tt, OpTick)]
        (fresh 2))) /\
  Forall well_observed
    (calls (exec quiet (const 2) opts
              [(tt, OpStart None); (tt, OpTick); (tt, OpTick); (tt, OpTick)]
              (fresh 2))).
Proof.
  assert (Hinit : forall w : unit, toValue (const 2) w <> S754_nan).
  { intro w. discriminate. }
  assert (R : reachable quiet (const 2) opts
                (exec quiet (const 2) opts
                   [(tt, OpStart None); (tt, OpTick); (tt, OpTick);
                    (tt, OpTick)]
                   (fresh 2))).
  { apply reachable_exec. apply reachable_init. }
  split.
  - split; assumption.
  - exact (calls_well_observed unit quiet (const 2) opts _ Hinit R).
Defined.

Lemma no_callbacks_no_calls_witness :
  (onTick_value (World:=unit) None = None /\
   (forall w : unit, onComplete_value None w = None) /\
   reachable quiet (const 1) None
     (exec quiet (const 1) None
        [(tt, OpStart None); (tt, OpTick); (tt, OpTick)]
        (useCountdown (const 1) None tt))) /\
  calls (exec quiet (const 1) None
           [(tt, OpStart None); (tt, OpTick); (tt, OpTick)]
           (useCountdown (const 1) None tt)) = [].
Proof.
  assert (Hc : forall w : unit, onComplete_value None w = None).
  { intro w. reflexivity. }
  assert (R : reachable quiet (const 1) None
                (exec quiet (const 1) None
                   [(tt, OpStart None); (tt, OpTick); (tt, OpTick)]
                   (useCountdown (const 1) None tt))).
  { apply reachable_exec. apply reachable_init. }
  split.
  - split; [reflexivity | split; assumption].
  - exact (no_callbacks_no_calls unit quiet (const 1) None _ eq_refl Hc R).
Defined.

Lemma start_stop_absorb_witness :
  OpResume (World:=unit) <> OpTick /\
  start (const 3) None tt (step quiet (const 3) opts tt OpResume (fresh 3))
  = start (const 3) None tt (fresh 3) /\
  stop (const 3) tt (step quiet (const 3) opts tt OpResume (fresh 3))
  = stop (const 3) tt (fresh 3).
Proof.
  assert (H : @OpResume unit <> OpTick) by discriminate.
  split.
  - exact H.
  - exact (start_stop_absorb unit quiet (const 3) opts None tt tt OpResume
             (fresh 3) H).
Defined.

Lemma restart_after_completion_witness :
  (isActive (intervalController (started 2)) = true /\
   remaining (started 2) = of_Z 2 /\
   0 < 2 < 2 ^ 53 /\
   nth_error [tt; tt] (Z.to_nat 2 - 1) = Some tt /\
   onComplete_value opts tt = Some 7%nat /\
   onTick_throws quiet opts tt = false /\
   toValue (const 2) tt = of_Z 2 /\
   nth_error [tt; tt; tt] (Z.to_nat 2 - 1) = Some tt) /\
  (completions
     (calls (run quiet opts [tt; tt; tt]
               (start (const 2) None tt
                  (run quiet opts [tt; tt] (started 2)))))
   = completions (calls (started 2))
     ++ [mkCall OnComplete 7%nat zero false;
         mkCall OnComplete 7%nat zero false] /\
   remaining (run quiet opts [tt; tt; tt]
                (start (const 2) None tt
                   (run quiet opts [tt; tt] (started 2))))
   = zero /\
   isActive (intervalController
               (run quiet opts [tt; tt; tt]
                  (start (const 2) None tt
                     (run quiet opts [tt; tt] (started 2))))) = false).
Proof.
  split.
  - split; [reflexivity|]. split; [reflexivity|]. split; [lia|].
    repeat split.
  - apply restart_after_completion
      with (n1 := 2) (w1 := tt) (n2 := 2) (w2 := tt);
      try reflexivity; lia.
Defined.

Lemma reset_mid_run_witness :
  (isActive (intervalController (started 3)) = true /\
   remaining (started 3) = of_Z 3 /\
   Z.of_nat (length [tt; tt]) < 3 < 2 ^ 53 /\
   toValue (const 3) tt = of_Z 3 /\
   0 <= 3 < 2 ^ 53) /\
  (isActive (intervalController
               (reset (const 3) tt (run quiet opts [tt; tt] (started 3))))
   = true /\
   remaining (run quiet opts [tt]
                (reset (const 3) tt (run quiet opts [tt; tt] (started 3))))
   = of_Z (Z.max (3 - Z.of_nat (length [tt])) 0)).
Proof.
  split.
  - split; [reflexivity|]. split; [reflexivity|]. split; [simpl; lia|].
    split; [reflexivity | lia].
  - apply reset_mid_run with (n := 3);
      try reflexivity; simpl; lia.
Defined.

Lemma remaining_raised_only_by_reset_witness :
  (valid (remaining (run quiet opts [tt; tt] (started 3))) /\
   js_le zero (remaining (run quiet opts [tt; tt] (started 3))) = true) /\
  ((js_le (remaining (step quiet (const 3) opts tt (OpStart None)
                        (run quiet opts [tt; tt] (started 3))))
      (remaining (run quiet opts [tt; tt] (started 3))) = true \/
    remaining (step quiet (const 3) opts tt (OpStart None)
                 (run quiet opts [tt; tt] (started 3)))
    = toValue (const 3) tt) /\
   (passive (OpStart (World:=unit) None) = true ->
    js_le (remaining (step quiet (const 3) opts tt (OpStart None)
                        (run quiet opts [tt; tt] (started 3))))
      (remaining (run quiet opts [tt; tt] (started 3))) = true)).
Proof.
  split.
  - split; reflexivity.
  - apply remaining_raised_only_by_reset; reflexivity.
Defined.

Lemma finished_is_stable_witness :
  (isActive (intervalController (run quiet opts [tt] (started 1))) = false /\
   js_le (remaining (run quiet opts [tt] (started 1))) zero = true /\
   (forall (w : unit) (op : Op unit),
      In (w, op) [(tt, OpTick); (tt, OpResume); (tt, OpPause)] ->
      passive op = true)) /\
  exec quiet (const 1) opts [(tt, OpTick); (tt, OpResume); (tt, OpPause)]
    (run quiet opts [tt] (started 1))
  = run quiet opts [tt] (started 1).
Proof.
  assert (Hp : forall (w : unit) (op : Op unit),
             In (w, op) [(tt, OpTick); (tt, OpResume); (tt, OpPause)] ->
             passive op = true).
  { intros w op [H|[H|[H|[]]]]; inversion H; reflexivity. }
  split.
  - split; [reflexivity | split; [reflexivity | exact Hp]].
  - apply finished_is_stable; [reflexivity | reflexivity | exact Hp].
Defined.

Lemma throwing_onTick_never_completes_witness :
  (onTick_value opts = Some 5%nat /\
   (forall w : unit, faulty w 5%nat = true) /\
   isActive (intervalController (started 1)) = true) /\
  (has_thrown (tick faulty opts tt (started 1)) = true /\
   remaining (state_of (tick faulty opts tt (started 1)))
   = decrement (remaining (started 1)) /\
   intervalController (state_of (tick faulty opts tt (started 1)))
   = intervalController (started 1) /\
   isActive (intervalController
               (run faulty opts [tt; tt; tt] (started 1))) = true /\
   completions (calls (run faulty opts [tt; tt; tt] (started 1)))
   = completions (calls (started 1))).
Proof.
  assert (Ht : forall w : unit, faulty w 5%nat = true).
  { intro w. reflexivity. }
  split.
  - split; [reflexivity | split; [exact Ht | reflexivity]].
  - destruct (throwing_onTick_never_completes unit faulty opts 5%nat tt
                (started 1) [tt; tt; tt] eq_refl Ht)
      as [(H1 & H2 & H3 & _) H4].
    destruct (H4 eq_refl) as [H5 H6].
    repeat split; assumption.
Defined.

Lemma nan_never_completes_witness :
  (remaining (start (Source (Plain S754_nan)) None tt
                (useCountdown (Source (Plain S754_nan)) opts tt))
   = S754_nan /\
   isActive (intervalController
               (start (Source (Plain S754_nan)) None tt
                  (useCountdown (Source (Plain S754_nan)) opts tt)))
   = true) /\
  (remaining (run quiet opts [tt; tt; tt]
                (start (Source (Plain S754_nan)) None tt
                   (useCountdown (Source (Plain S754_nan)) opts tt)))
   = S754_nan /\
   isActive (intervalController
               (run quiet opts [tt; tt; tt]
                  (start (Source (Plain S754_nan)) None tt
                     (useCountdown (Source (Plain S754_nan)) opts tt))))
   = true /\
   completions (calls (run quiet opts [tt; tt; tt]
                         (start (Source (Plain S754_nan)) None tt
                            (useCountdown (Source (Plain S754_nan)) opts
                               tt))))
   = completions (calls (start (Source (Plain S754_nan)) None tt
                           (useCountdown (Source (Plain S754_nan)) opts
                              tt)))).
Proof.
  split.
  - split; reflexivity.
  - apply nan_never_completes; reflexivity.
Defined.

Lemma throwing_onComplete_after_pause_witness :
  (completes (fun (_ : unit) (g : Fn) => Nat.eqb g 7) opts tt
     (remaining (started 1)) = true /\
   onComplete_value opts tt = Some 7%nat /\
   Nat.eqb 7 7 = true) /\
  (has_thrown (tick (fun (_ : unit) (g : Fn) => Nat.eqb g 7) opts tt
                 (started 1)) = true /\
   isActive (intervalController
               (state_of (tick (fun (_ : unit) (g : Fn) => Nat.eqb g 7)
                            opts tt (started 1)))) = false /\
   completions (calls (state_of
                         (tick (fun (_ : unit) (g : Fn) => Nat.eqb g 7)
                            opts tt (started 1))))
   = completions (calls (started 1))
     ++ [mkCall OnComplete 7%nat (decrement (remaining (started 1)))
           false]).
Proof.
  split.
  - repeat split.
  - apply throwing_onComplete_after_pause; reflexivity.
Defined.
